(** * Object-embedded i18n: the tree walker, the engine and the loader

    A shallow embedding of [lib/i18n.js], [lib/Engine.js], [lib/formatter.js]
    and [lib/Loader.js].

    JavaScript objects are mutable and shared, and several properties of
    the library are about exactly that (what a call writes into the value
    it was given, what a clone shares with its original), so objects live in
    a store and values hold references into it. *)

From Stdlib Require Import Ascii String.
From stdpp Require Import base option list strings gmap pretty.

Local Open Scope string_scope.
Local Open Scope list_scope.

(** ** Values and the store *)

(** A location of the store. *)
Abbreviation loc := nat (only parsing).

(** A JavaScript value: a primitive or a reference to an object of the
    store.  Numbers are carried through untouched by the library (only
    their type is inspected), so an integer payload stands for them.
    Functions, promises and generators other than the ones [Engine.t]
    creates are outside the model. *)
Inductive val :=
| VUndef
| VNull
| VBool (b : bool)
| VNum (n : Z)
| VStr (s : string)
| VRef (l : loc).

(** Own enumerable properties, in insertion order. *)
Definition props := list (string * val).

(** An object of the store, with its enumerable properties:
    - [OPlain]: an object literal ([_.isPlainObject]);
    - [OArray]: an array;
    - [OInst]: an instance of a class, with what its [toJSON] method
      returns when it has one;
    - [OError]: an [Error]; its message is not enumerable. *)
Inductive obj :=
| OPlain (ps : props)
| OArray (es : list val)
| OInst (ps : props) (toJSON : option val)
| OError (msg : string) (ps : props).

(** The store: the object at each location. *)
Abbreviation heap := (list obj) (only parsing).

Definition alloc (h : heap) (o : obj) : heap * loc := (h ++ [o], length h).

#[global] Instance val_eq_dec : EqDecision val.
Proof. solve_decision. Defined.

#[global] Instance obj_eq_dec : EqDecision obj.
Proof. solve_decision. Defined.

(** [object[key]]: [undefined] when the property is absent. *)
Fixpoint get_prop (ps : props) (k : string) : val :=
  match ps with
  | [] => VUndef
  | (k', v) :: r => if String.eqb k' k then v else get_prop r k
  end.

(** [key in object] for own enumerable properties. *)
Fixpoint has_prop (ps : props) (k : string) : bool :=
  match ps with
  | [] => false
  | (k', _) :: r => String.eqb k' k || has_prop r k
  end.

(** [object[key] = v]: overwrite in place, or append a new property. *)
Fixpoint set_prop (ps : props) (k : string) (v : val) : props :=
  match ps with
  | [] => [(k, v)]
  | (k', v') :: r =>
      if String.eqb k' k then (k', v) :: r else (k', v') :: set_prop r k v
  end.

(** The enumerable properties of the object a value refers to; [None] for
    primitives, arrays and dangling references. *)
Definition own_props (h : heap) (v : val) : option props :=
  match v with
  | VRef l =>
      match h !! l with
      | Some (OPlain ps) => Some ps
      | Some (OInst ps _) => Some ps
      | Some (OError _ ps) => Some ps
      | _ => None
      end
  | _ => None
  end.

(** [o[k] = v] on an object of the store.  Index writes into arrays go
    through [OArray] directly; named properties on arrays are not
    modelled. *)
Definition obj_set (o : obj) (k : string) (v : val) : obj :=
  match o with
  | OPlain ps => OPlain (set_prop ps k v)
  | OInst ps j => OInst (set_prop ps k v) j
  | OError m ps => OError m (set_prop ps k v)
  | OArray es => OArray es
  end.

Definition heap_set (h : heap) (l : loc) (k : string) (v : val) : heap :=
  match h !! l with
  | Some o => <[l := obj_set o k v]> h
  | None => h
  end.

(** ** The node validator ([tv4] against [TRANSLATE_SCHEMA]) *)

Inductive jtype := TObject | TString | TNumber.

(** The part of JSON Schema the [@translate] schema uses: [type],
    [required], [properties] and [additionalProperties] ([true] when the
    schema does not give it). *)
Unset Elimination Schemes.
Inductive schema :=
| Schema (ty : option jtype) (required : list string)
         (properties : list (string * schema)) (additional : bool).
Set Elimination Schemes.

(** tv4's type test: ["object"] is any non-null, non-array object. *)
Definition check_type (h : heap) (ty : option jtype) (v : val) : bool :=
  match ty with
  | None => true
  | Some TString => match v with VStr _ => true | _ => false end
  | Some TNumber => match v with VNum _ => true | _ => false end
  | Some TObject => match own_props h v with Some _ => true | None => false end
  end.

Definition is_undef (v : val) : bool :=
  match v with VUndef => true | _ => false end.

Definition schema_keys (sps : list (string * schema)) : list string :=
  map fst sps.

Definition mem_str (k : string) (ks : list string) : bool :=
  existsb (String.eqb k) ks.

(** [tv4.validateResult(v, s).valid].  A required property counts as
    missing when it reads [undefined]; every property that is present is
    checked against its sub-schema; a property without a sub-schema is an
    error exactly when [additionalProperties] is [false]. *)
Fixpoint validate (h : heap) (s : schema) (v : val) {struct s} : bool :=
  match s with
  | Schema ty req sps addl =>
      check_type h ty v &&
      match own_props h v with
      | None => true
      | Some ps =>
          forallb (fun k => negb (is_undef (get_prop ps k))) req &&
          (fix each (l : list (string * schema)) : bool :=
             match l with
             | [] => true
             | (k, s') :: r =>
                 (if has_prop ps k then validate h s' (get_prop ps k) else true)
                 && each r
             end) sps &&
          forallb (fun kv => mem_str (fst kv) (schema_keys sps) || addl) ps
      end
  end.

Definition TRANSLATE_SYMBOL : string := "@translate".

(** Modelled from the spec: the file [lib/@translate.schema.json] that
    [TRANSLATE_SCHEMA] is read from is not among the sources; the constant
    is the JSON that the doc comment of [TRANSLATE_SCHEMA] in [i18n.js] and
    the README reproduce.  [additionalProperties: false] stands at the outer
    level only. *)
Definition TRANSLATE_INNER_SCHEMA : schema :=
  Schema (Some TObject) ["key"]
    [ ("key", Schema (Some TString) [] [] true);
      ("quantity", Schema (Some TNumber) [] [] true);
      ("placeholders", Schema (Some TObject) [] [] true);
      ("fallback", Schema (Some TString) [] [] true) ]
    true.

Definition TRANSLATE_SCHEMA : schema :=
  Schema (Some TObject) [TRANSLATE_SYMBOL]
    [ (TRANSLATE_SYMBOL, TRANSLATE_INNER_SCHEMA) ]
    false.

Definition _validateNode (h : heap) (node : val) : bool :=
  validate h TRANSLATE_SCHEMA node.

(** ** The tree walker ([_walk], [_walkArrayOrObject]) *)

(** What the walker builds.  The copies it makes ([Object.assign({}, o)],
    [[...a]]) are new objects that nothing else refers to, so they are
    kept as tree nodes; leaves are the values left as they are (primitives
    and references to objects that are neither plain nor arrays), and
    [TPending tr] is the generator function [engine.t(tr)] returned for the
    node whose [@translate] object is [tr]. *)
Unset Elimination Schemes.
Inductive tree :=
| TLeaf (v : val)
| TObj (ps : list (string * tree))
| TArr (es : list tree)
| TPending (translate : val).
Set Elimination Schemes.

(** The loop of [_walkArrayOrObject] over the values of the copy, in the
    order of [Object.keys]; the collected keys are appended in that
    order. *)
Fixpoint walk_each (walk : val -> option (tree * list string)) (vs : list val)
  : option (list tree * list string) :=
  match vs with
  | [] => Some ([], [])
  | v :: r =>
      match walk v with
      | None => None
      | Some (t, ks) =>
          match walk_each walk r with
          | None => None
          | Some (ts, ks') => Some (t :: ts, ks ++ ks')
          end
      end
  end.

(** [object[TRANSLATE_SYMBOL]] *)
Definition translate_of (h : heap) (object : val) : val :=
  match own_props h object with
  | Some ps => get_prop ps TRANSLATE_SYMBOL
  | None => VUndef
  end.

(** [object[TRANSLATE_SYMBOL].key], a string for a validated node. *)
Definition key_of (h : heap) (tr : val) : list string :=
  match own_props h tr with
  | Some ps => match get_prop ps "key" with VStr s => [s] | _ => [] end
  | None => []
  end.

(** [_walk(object, engine)].  The store may hold cycles, on which the
    JavaScript recursion does not return either; [fuel] bounds the depth,
    and [None] is the walk that ran out of it. *)
Fixpoint _walk (fuel : nat) (h : heap) (object : val)
  : option (tree * list string) :=
  match fuel with
  | O => None
  | S fuel' =>
      if _validateNode h object then
        Some (TPending (translate_of h object), key_of h (translate_of h object))
      else
        match object with
        | VRef l =>
            match h !! l with
            | Some (OPlain ps) =>
                match walk_each (_walk fuel' h) (map snd ps) with
                | Some (ts, ks) => Some (TObj (zip (map fst ps) ts), ks)
                | None => None
                end
            | Some (OArray es) =>
                match walk_each (_walk fuel' h) es with
                | Some (ts, ks) => Some (TArr ts, ks)
                | None => None
                end
            | Some (OInst _ (Some json)) => _walk fuel' h json
            | _ => Some (TLeaf object, [])
            end
        | _ => Some (TLeaf object, [])
        end
  end.

(** ** The libraries the engine calls *)

(** A call that returns or throws (the message of the exception). *)
Inductive res (A : Type) :=
| Ok (a : A)
| Throw (msg : string).
Arguments Ok {A} a.
Arguments Throw {A} msg.

(** JavaScript truthiness. *)
Definition truthy (v : val) : bool :=
  match v with
  | VUndef | VNull => false
  | VBool b => b
  | VNum n => negb (n =? 0)%Z
  | VStr s => negb (String.eqb s "")
  | VRef _ => true
  end.

(** The configuration [formatDuration] hands to [humanize-duration]. *)
Record DurationConfig := {
  dc_language : string;
  dc_largest : option val;
  dc_round : option val;
  dc_units : option (list val)
}.

(** The code of i18next, moment, humanize-duration and Intl is not part of
    the library; what the engine and the formatters need from them is
    taken as an interface, of which nothing is assumed:
    - [i18n_exists cat lng key]: [exists(key)] on an i18next instance
      whose language is [lng] and whose resource store is [cat];
    - [i18n_t cat lng h key options format]: [t(key, options)] on that
      instance.  i18next takes its first argument as a key, which it
      parses (the text before a [:] is a namespace), and its second as
      its options, among which it finds the values to interpolate but
      also [count], [defaultValue], [lng] and the like; [options] are
      the properties of the object it is handed and [h] the store their
      values refer to.  [format value name lng] is the function
      [Engine.init] gives it for [{{name, format}}] references; what it
      throws, [t] throws;
    - [moment_format value tz locale pattern]:
      [moment(value).locale(locale).tz(tz).format(pattern)];
    - [humanize value config]: [humanizeDuration(value, config)];
    - [number_format locale precision currency value]: Intl's currency
      rendering once a currency code is given. *)
Record Host := {
  i18n_exists : gmap string (gmap string string) -> val -> val -> bool;
  i18n_t :
    gmap string (gmap string string) -> val -> heap -> val -> props ->
    (val -> string -> string -> res val) -> res val;
  moment_format : val -> option val -> string -> string -> res string;
  humanize : val -> DurationConfig -> res string;
  number_format : string -> val -> val -> val -> res string
}.

(** ** The formatters ([lib/formatter.js]) *)

(** Destructuring a parameter ([{ value, ... }]): [undefined] and [null]
    throw, anything else gives its properties ([undefined] for the ones
    it has not). *)
Definition destructure (h : heap) (v : val) : res props :=
  match v with
  | VUndef | VNull => Throw "Cannot destructure 'undefined' or 'null'"
  | _ => Ok (default [] (own_props h v))
  end.

(** [timezone || engine.timezone] *)
Definition getValidTimezone (timezone engine_timezone : val) : val :=
  if truthy timezone then timezone else engine_timezone.

Definition localeDate (H : Host) (h : heap) (tz : val) (date : val)
    (locale pattern : string) : res val :=
  match destructure h date with
  | Throw m => Throw m
  | Ok ps =>
      let _timezone := getValidTimezone (get_prop ps "timezone") tz in
      match moment_format H (get_prop ps "value")
              (if truthy _timezone then Some _timezone else None)
              locale pattern with
      | Ok s => Ok (VStr s)
      | Throw m => Throw m
      end
  end.

Definition formatDate H h tz value locale := localeDate H h tz value locale "LL".
Definition formatTime H h tz value locale := localeDate H h tz value locale "LT".
Definition formatDateAndTime H h tz value locale :=
  localeDate H h tz value locale "LLLL".

Definition _durationUnitsMap : list (string * string) :=
  [ ("year", "y"); ("years", "y"); ("month", "mo"); ("months", "mo");
    ("week", "w"); ("weeks", "w"); ("day", "d"); ("days", "d");
    ("hour", "h"); ("hours", "h"); ("minute", "m"); ("minutes", "m");
    ("second", "s"); ("seconds", "s");
    ("millisecond", "ms"); ("milliseconds", "ms") ].

Fixpoint assoc_str {A} (l : list (string * A)) (k : string) : option A :=
  match l with
  | [] => None
  | (k', a) :: r => if String.eqb k' k then Some a else assoc_str r k
  end.

(** [_durationUnitsMap[unit]] *)
Definition unit_code (unit : val) : val :=
  match unit with
  | VStr u => match assoc_str _durationUnitsMap u with
              | Some c => VStr c
              | None => VUndef
              end
  | _ => VUndef
  end.

(** [if (!_.isEmpty(units)) config.units = units.map(...)]: an empty
    value sets nothing, an array is mapped, anything else that is not
    empty has no [map]. *)
Definition duration_units (h : heap) (units : val) : res (option (list val)) :=
  match units with
  | VStr s => if String.eqb s "" then Ok None
              else Throw "units.map is not a function"
  | VRef l =>
      match h !! l with
      | Some (OArray []) => Ok None
      | Some (OArray es) => Ok (Some (map unit_code es))
      | Some (OPlain []) | Some (OInst [] _) | Some (OError _ []) => Ok None
      | Some _ => Throw "units.map is not a function"
      | None => Ok None
      end
  | _ => Ok None
  end.

(** [locale.split('-')[0]] *)
Fixpoint language_of (locale : string) : string :=
  match locale with
  | EmptyString => EmptyString
  | String c r =>
      if Ascii.eqb c "-"%char then EmptyString else String c (language_of r)
  end.

Definition formatDuration (H : Host) (h : heap) (duration : val)
    (locale : string) : res val :=
  match destructure h duration with
  | Throw m => Throw m
  | Ok ps =>
      match duration_units h (get_prop ps "units") with
      | Throw m => Throw m
      | Ok us =>
          let precision := get_prop ps "precision" in
          let round := get_prop ps "round" in
          let config :=
            {| dc_language := language_of locale;
               dc_largest := if truthy precision then Some precision else None;
               dc_round := if truthy round then Some round else None;
               dc_units := us |} in
          match humanize H (get_prop ps "value") config with
          | Ok s => Ok (VStr s)
          | Throw m => Throw m
          end
      end
  end.

(** [Intl.NumberFormat(locale, { style: 'currency', currency, ... })]:
    the constructor throws a [TypeError] when the style is [currency] and
    no currency code is given. *)
Definition Intl_NumberFormat (H : Host) (locale : string)
    (precision currency value : val) : res string :=
  match currency with
  | VUndef => Throw "Currency code is required when style is currency"
  | _ => number_format H locale precision currency value
  end.

Definition formatCurrency (H : Host) (h : heap) (amount : val)
    (locale : string) : res val :=
  match destructure h amount with
  | Throw m => Throw m
  | Ok ps =>
      match Intl_NumberFormat H locale (get_prop ps "precision")
              (get_prop ps "currency") (get_prop ps "value") with
      | Ok s => Ok (VStr s)
      | Throw m => Throw m
      end
  end.

(** [formatter(value, format, locale, engine)]: the entry of [FORMATTERS]
    for [format], or the value itself when there is none.  [tz] is
    [engine.timezone]. *)
Definition formatter (H : Host) (h : heap) (tz : val)
    (value : val) (format locale : string) : res val :=
  if String.eqb format "date" then formatDate H h tz value locale
  else if String.eqb format "time" then formatTime H h tz value locale
  else if String.eqb format "datetime" then formatDateAndTime H h tz value locale
  else if String.eqb format "duration" then formatDuration H h value locale
  else if String.eqb format "currency" then formatCurrency H h value locale
  else Ok value.

(** ** The engine ([lib/Engine.js]) *)

(** A logger is known by a name; [lg_clone] is the logger its [clone]
    method returns, when it has one. *)
Record Logger := { lg_name : nat; lg_clone : option nat }.

Inductive LogEntry :=
| LogError (logger : nat) (error : val) (translate : val)
| LogWarn (logger : nat) (error : string).

(** An [Engine] object: [_config] refers to a configuration object and
    [_engine] to an i18next instance, both shared with whoever holds the
    same reference. *)
Record Engine := { _config : loc; _engine : loc; _logger : Logger }.

(** The state the library runs in: the store of the values it is given,
    the configuration objects, the language of each i18next instance, the
    resource store (one, shared by every instance [cloneInstance] makes),
    and what was logged. *)
Record World := {
  w_heap : heap;
  w_configs : list props;
  w_instances : list val;
  w_catalog : gmap string (gmap string string);
  w_log : list LogEntry
}.

Definition with_heap (w : World) (h : heap) : World :=
  {| w_heap := h; w_configs := w_configs w; w_instances := w_instances w;
     w_catalog := w_catalog w; w_log := w_log w |}.

Definition with_configs (w : World) (c : list props) : World :=
  {| w_heap := w_heap w; w_configs := c; w_instances := w_instances w;
     w_catalog := w_catalog w; w_log := w_log w |}.

Definition with_instances (w : World) (i : list val) : World :=
  {| w_heap := w_heap w; w_configs := w_configs w; w_instances := i;
     w_catalog := w_catalog w; w_log := w_log w |}.

Definition with_catalog (w : World) (c : gmap string (gmap string string)) : World :=
  {| w_heap := w_heap w; w_configs := w_configs w; w_instances := w_instances w;
     w_catalog := c; w_log := w_log w |}.

Definition add_log (w : World) (e : LogEntry) : World :=
  {| w_heap := w_heap w; w_configs := w_configs w; w_instances := w_instances w;
     w_catalog := w_catalog w; w_log := w_log w ++ [e] |}.

Definition DEFAULT_LOCALE : string := "en".

Definition config_of (w : World) (e : Engine) : props :=
  default [] (w_configs w !! _config e).

(** [get locale()]: [this._engine.language] *)
Definition get_locale (w : World) (e : Engine) : val :=
  default VUndef (w_instances w !! _engine e).

(** [set locale(locale)]:
    [this._config.locale = this._engine.language = locale] *)
Definition set_locale (w : World) (e : Engine) (locale : val) : World :=
  with_configs
    (with_instances w (<[_engine e := locale]> (w_instances w)))
    (<[_config e := set_prop (config_of w e) "locale" locale]> (w_configs w)).

(** [get timezone()]: [this._config.timezone] *)
Definition get_timezone (w : World) (e : Engine) : val :=
  get_prop (config_of w e) "timezone".

(** [set timezone(timezone)]: [this._config.timezone = timezone] *)
Definition set_timezone (w : World) (e : Engine) (timezone : val) : World :=
  with_configs w
    (<[_config e := set_prop (config_of w e) "timezone" timezone]> (w_configs w)).

Definition get_logger (e : Engine) : Logger := _logger e.

Definition set_logger (e : Engine) (logger : Logger) : Engine :=
  {| _config := _config e; _engine := _engine e; _logger := logger |}.

Definition getDefaultLocale : string := "en".

Definition str_of (v : val) : string :=
  match v with VStr s => s | _ => "" end.

(** [getLocales()]: the default locale, preceded by the engine's own when
    it is another one. *)
Definition getLocales (w : World) (e : Engine) : list string :=
  match get_locale w e with
  | VStr l => if String.eqb l getDefaultLocale then [getDefaultLocale]
              else [l; getDefaultLocale]
  | other => [str_of other; getDefaultLocale]
  end.

(** [clone()]: [new Engine(this._config)] keeps the reference to the same
    configuration object; [cloneInstance()] makes a new i18next instance
    with the language of the original; the logger is cloned when it can
    be. *)
Definition clone (w : World) (e : Engine) : Engine * World :=
  ({| _config := _config e;
      _engine := length (w_instances w);
      _logger := match lg_clone (_logger e) with
                 | Some n => {| lg_name := n; lg_clone := Some n |}
                 | None => _logger e
                 end |},
   with_instances w (w_instances w ++ [get_locale w e])).

(** [init()] without argument: i18next is initialised with
    [lng: this.locale || DEFAULT_LOCALE], overridden by a [lng] of the
    configuration, and takes that language. *)
Definition init (w : World) (e : Engine) : World :=
  let lng :=
    match get_prop (config_of w e) "lng" with
    | VUndef => if truthy (get_locale w e) then get_locale w e
                else VStr DEFAULT_LOCALE
    | v => v
    end in
  with_instances w (<[_engine e := lng]> (w_instances w)).

(** [addTranslations(locale, translations)]:
    [addResourceBundle(locale, 'translation', translations, true)] merges
    the bundle into the resources of the locale; templates already there
    are kept. *)
Definition addTranslations (w : World) (locale : string)
    (translations : gmap string string) : World :=
  with_catalog w
    (<[locale := default ∅ (w_catalog w !! locale) ∪ translations]> (w_catalog w)).

(** [this._engine.exists(key)] *)
Definition i18next_exists (H : Host) (w : World) (e : Engine) (key : val) : bool :=
  i18n_exists H (w_catalog w) (get_locale w e) key.

(** [this._engine.t(key, placeholders)]: the placeholders are the options
    of the call; the [format] function of [init] is
    [(value, format, locale) => formatter(value, format, locale, this)]. *)
Definition i18next_t (H : Host) (w : World) (e : Engine) (key : val)
    (placeholders : props) : res val :=
  i18n_t H (w_catalog w) (get_locale w e) (w_heap w) key placeholders
    (formatter H (w_heap w) (get_timezone w e)).

(** [if (typeof quantity === 'number') placeholders.count = quantity]:
    the placeholders the template is interpolated with, and the state
    after the write.  Without [placeholders] the count goes into the new
    object the default [{}] made; with an object it is written into that
    object; a primitive cannot take a property ([None]: the [TypeError]
    of strict mode). *)
Definition bind_count (w : World) (placeholders quantity : val)
  : option (props * World) :=
  match quantity, placeholders with
  | VNum q, VUndef => Some ([("count", VNum q)], w)
  | VNum q, VRef p =>
      let h' := heap_set (w_heap w) p "count" (VNum q) in
      Some (default [] (own_props h' placeholders), with_heap w h')
  | VNum q, _ => None
  | _, _ => Some (default [] (own_props (w_heap w) placeholders), w)
  end.

(** The body of the [try] block: the fallback when the key does not
    exist and a fallback is given, the key otherwise. *)
Definition lookup_or_fallback (H : Host) (w : World) (self : Engine)
    (key fallback : val) (placeholders : props) : res val :=
  if negb (i18next_exists H w self key) && truthy fallback
  then i18next_t H w self fallback placeholders
  else i18next_t H w self key placeholders.

(** The [catch] block: the error is logged and stored in
    [translate.error]. *)
Definition catch_error (w : World) (self : Engine) (translate : val)
    (msg : string) : World :=
  let '(h2, error) := alloc (w_heap w) (OError msg []) in
  let w2 := add_log (with_heap w h2)
              (LogError (lg_name (get_logger self)) (VRef error) translate) in
  match translate with
  | VRef l => with_heap w2 (heap_set (w_heap w2) l "error" (VRef error))
  | _ => w2
  end.

(** The generator function [t(translate)] returns, run to its end.
    [None] is an exception that leaves the generator: the ones raised
    outside its [try] block. *)
Definition translateGenerator (H : Host) (self : Engine) (translate : val)
    (w : World) : option val * World :=
  match destructure (w_heap w) translate with
  | Throw _ => (None, w)
  | Ok ps =>
      match bind_count w (get_prop ps "placeholders") (get_prop ps "quantity") with
      | None => (None, w)
      | Some (placeholders, w1) =>
          match lookup_or_fallback H w1 self (get_prop ps "key")
                  (get_prop ps "fallback") placeholders with
          | Ok v => (Some v, w1)
          | Throw msg => (Some translate, catch_error w1 self translate msg)
          end
      end
  end.

(** ** The loader ([lib/Loader.js]) *)

(** The [lru-cache] of the loader: at most [lru_max] entries (no bound
    when it is 0), the most recently used first.  Expiry by age needs a
    clock and is left out: entries are read within their [maxAge]. *)
Record LRU := {
  lru_max : nat;
  lru_items : list (string * gmap string string)
}.

Definition lru_remove (key : string) (items : list (string * gmap string string))
  : list (string * gmap string string) :=
  filter (fun kv => negb (String.eqb (fst kv) key) = true) items.

Definition lru_trim (max : nat) (items : list (string * gmap string string))
  : list (string * gmap string string) :=
  match max with
  | O => items
  | _ => take max items
  end.

(** [cache.get(key)]: a hit becomes the most recently used entry. *)
Definition lru_get (c : LRU) (key : string) : option (gmap string string) * LRU :=
  match assoc_str (lru_items c) key with
  | Some v =>
      (Some v, {| lru_max := lru_max c;
                  lru_items := (key, v) :: lru_remove key (lru_items c) |})
  | None => (None, c)
  end.

(** [cache.set(key, value)]: the entry becomes the most recently used one
    and the least recently used ones beyond [max] are dropped. *)
Definition lru_set (c : LRU) (key : string) (v : gmap string string) : LRU :=
  {| lru_max := lru_max c;
     lru_items := lru_trim (lru_max c) ((key, v) :: lru_remove key (lru_items c)) |}.

(** The remote store as the loader sees it when it runs its batch: what
    each hash holds, or the error the batch fails with. *)
Inductive Redis :=
| Connected (db : gmap string (gmap string string))
| Failing (error : string).

(** [this.redis] (absent until [init] is given a url, and after
    [disconnect]), the cache, and [this.logger]. *)
Record Loader := {
  ld_redis : option Redis;
  ld_cache : LRU;
  ld_logger : nat
}.

Definition with_cache (ld : Loader) (c : LRU) : Loader :=
  {| ld_redis := ld_redis ld; ld_cache := c; ld_logger := ld_logger ld |}.

(** [_.pick(value, ...locales)] *)
Definition pick (value : gmap string string) (locales : list string)
  : gmap string string :=
  filter (fun kv => fst kv ∈ locales) value.

(** [getItemFromCache(key, ...locales)] *)
Definition getItemFromCache (ld : Loader) (key : string) (locales : list string)
  : gmap string string * Loader :=
  let '(found, c) := lru_get (ld_cache ld) key in
  let value := default ∅ found in
  (match locales with
   | [] => value
   | _ => pick value locales
   end, with_cache ld c).

(** [setItemToCache(key, translations)]:
    [Object.assign(value, translations)] writes the new templates over
    the ones the entry has. *)
Definition setItemToCache (ld : Loader) (key : string)
    (translations : gmap string string) : Loader :=
  let '(value, ld1) := getItemFromCache ld key [] in
  with_cache ld1 (lru_set (ld_cache ld1) key (translations ∪ value)).

(** [_.set(translations, `${locale}.${key}`, template)], for a locale
    and a key that lodash reads as one step of the path each:
    [translations[locale][key] = template].  lodash reads [.], [[] and
    []] in a key as further steps and nests the template under them;
    the mapping keeps such a key whole, which stands for the nested
    path as long as no key is a path into another ([a] and [a.b]). *)
Definition set_path (translations : gmap string (gmap string string))
    (locale key template : string) : gmap string (gmap string string) :=
  <[locale := <[key := template]> (default ∅ (translations !! locale))]> translations.

(** [loadFromCache(engine, keys)].  [Object.assign(translations, ...)]
    replaces, for each locale of a hit, what [translations] held for that
    locale by the object built for this key. *)
Fixpoint loadFromCache_loop (locales : list string) (keys : list string)
    (translations : gmap string (gmap string string)) (unknown : list string)
    (ld : Loader)
  : gmap string (gmap string string) * list string * Loader :=
  match keys with
  | [] => (translations, unknown, ld)
  | key :: r =>
      let '(_translations, ld1) := getItemFromCache ld key locales in
      if bool_decide (_translations = ∅)
      then loadFromCache_loop locales r translations (unknown ++ [key]) ld1
      else loadFromCache_loop locales r
             (((fun value => {[ key := value ]}) <$> _translations) ∪ translations)
             unknown ld1
  end.

Definition loadFromCache (w : World) (ld : Loader) (engine : Engine)
    (keys : list string)
  : gmap string (gmap string string) * list string * Loader :=
  loadFromCache_loop (getLocales w engine) keys ∅ [] ld.

(** [multi.hmget(key, ...locales)] for each key, then [multi.exec]. *)
Definition multi_exec (r : Redis) (keys locales : list string)
  : res (list (list (option string))) :=
  match r with
  | Failing error => Throw error
  | Connected db =>
      Ok (map (fun key => map (fun f => db !! key ≫= fun m => m !! f) locales) keys)
  end.

(** The inner loop of "Reformat the translations": row [i] of the
    results against the locales. *)
Fixpoint reformat_row (row : list (option string)) (key : string)
    (j : nat) (locales : list string)
    (acc : gmap string (gmap string string) * Loader)
  : gmap string (gmap string string) * Loader :=
  match locales with
  | [] => acc
  | locale :: r =>
      let acc' :=
        match row !! j with
        | Some (Some template) =>
            if String.eqb template "" then acc
            else (set_path (fst acc) locale key template,
                  setItemToCache (snd acc) key {[ locale := template ]})
        | _ => acc
        end in
      reformat_row row key (S j) r acc'
  end.

(** The outer loop: [for (const [i, key] of keys.entries())]. *)
Fixpoint reformat (results : list (list (option string))) (i : nat)
    (keys locales : list string)
    (acc : gmap string (gmap string string) * Loader)
  : gmap string (gmap string string) * Loader :=
  match keys with
  | [] => acc
  | key :: r =>
      reformat results (S i) r locales
        (reformat_row (default [] (results !! i)) key 0 locales acc)
  end.

(** [load(engine, keys)]: the translations it returns, the loader and
    the state after it. *)
Definition load (w : World) (ld : Loader) (engine : Engine) (keys : list string)
  : gmap string (gmap string string) * Loader * World :=
  match ld_redis ld with
  | None => (∅, ld, w)
  | Some redis =>
      let locales := getLocales w engine in
      let '(_translations, unknown, ld1) := loadFromCache w ld engine keys in
      let add_all (translations : gmap string (gmap string string)) : World :=
        map_fold (fun locale templates w' => addTranslations w' locale templates)
                 w translations in
      match unknown with
      | [] => (_translations, ld1, add_all _translations)
      | _ =>
          match multi_exec redis unknown (getLocales w engine) with
          | Throw error =>
              (_translations, ld1, add_log w (LogWarn (ld_logger ld1) error))
          | Ok results =>
              let '(translations, ld2) :=
                reformat results 0 keys locales (_translations, ld1) in
              (translations, ld2, add_all translations)
          end
      end
  end.

(** ** [translate] ([lib/i18n.js]) *)

(** The entries of an array or of an object under [co]: each is
    resolved in turn, on the state the one before left; the whole is
    rejected ([None]) when one of them is. *)
Definition co_each {A B} (f : A -> World -> option B * World)
  : list A -> World -> option (list B) * World :=
  fix each (l : list A) (w0 : World) : option (list B) * World :=
    match l with
    | [] => (Some [], w0)
    | x :: r =>
        let '(x', w1) := f x w0 in
        let '(r', w2) := each r w1 in
        (match x', r' with
         | Some a, Some b => Some (a :: b)
         | _, _ => None
         end, w2)
    end.

(** [yield res] under [co], for a value [co] can resolve: a generator
    function is run to its end and stands for what it returns; an array
    or a plain object is resolved entry by entry, in order, into a new
    array or object; anything else inside is kept.  Every generator
    function is started before any result is awaited, so all of them run
    even when one throws; [None] is the rejection of the whole. *)
Fixpoint co_resolve (H : Host) (engine : Engine) (t : tree) (w : World)
  : option tree * World :=
  match t with
  | TLeaf v => (Some (TLeaf v), w)
  | TPending translate =>
      match translateGenerator H engine translate w with
      | (Some v, w') => (Some (TLeaf v), w')
      | (None, w') => (None, w')
      end
  | TArr es =>
      let '(r, w') := co_each (co_resolve H engine) es w in
      (option_map TArr r, w')
  | TObj ps =>
      let '(r, w') :=
        co_each (fun (kx : string * tree) w0 =>
                   let '(x', w1) := co_resolve H engine (snd kx) w0 in
                   (option_map (pair (fst kx)) x', w1)) ps w in
      (option_map TObj r, w')
  end.

(** [try { return yield res; } catch (error) { return res; }]: [co]
    rejects a value that is not a function, promise, generator, array or
    plain object, and a rejection comes back as an exception at the
    [yield]; both are answered by [res] itself. *)
Definition yield_res (H : Host) (engine : Engine) (res : tree) (w : World)
  : tree * World :=
  match res with
  | TLeaf _ => (res, w)
  | _ =>
      match co_resolve H engine res w with
      | (Some t, w') => (t, w')
      | (None, w') => (res, w')
      end
  end.

(** [translate(object, locale, timezone)], run by [co] to its end, on
    the shared engine [_engine] and the loader [_loader].  [None]: the
    walk ran out of [fuel]. *)
Definition translate (H : Host) (fuel : nat) (_engine0 : Engine) (_loader : Loader)
    (w : World) (object : val) (locale : string) (timezone : val)
  : option (tree * World * Loader) :=
  let '(engine, w1) := clone w _engine0 in
  let w2 := set_locale w1 engine (VStr locale) in
  let w3 := set_timezone w2 engine timezone in
  let w4 := init w3 engine in
  match _walk fuel (w_heap w4) object with
  | None => None
  | Some (res, keys) =>
      let '(_, ld, w5) := load w4 _loader engine keys in
      let '(out, w6) := yield_res H engine res w5 in
      Some (out, w6, ld)
  end.

(** ** A reference host

    A small, executable stand-in for the libraries, used to run the
    library on concrete inputs: a key is split into namespace and key;
    resources are looked up under the language and then under its base
    language, with the [_plural] form first when the count is not 1; a
    key without resource gives the [defaultValue] of the options or the
    key without its namespace; [{{name}}] and [{{name, format}}] are
    substituted; dates, durations and amounts are rendered symbolically. *)
Module Ref.

Definition stringify (v : val) : string :=
  match v with
  | VUndef | VNull => ""
  | VBool true => "true"
  | VBool false => "false"
  | VNum n => pretty n
  | VStr s => s
  | VRef _ => "[object Object]"
  end.

(** The namespace and the key of [ns:key]; a key without [:] has no
    namespace. *)
Fixpoint ns_key (s : string) : option string * string :=
  match s with
  | EmptyString => (None, EmptyString)
  | String c r =>
      if Ascii.eqb c ":"%char then (Some EmptyString, r)
      else match ns_key r with
           | (Some ns, key) => (Some (String c ns), key)
           | (None, key) => (None, String c key)
           end
  end.

Definition lookup_in (cat : gmap string (gmap string string))
    (lng key : string) : option string :=
  match cat !! lng ≫= (fun m => m !! key) with
  | Some t => Some t
  | None => cat !! language_of lng ≫= (fun m => m !! key)
  end.

(** A count other than 1 asks for the [_plural] form first. *)
Definition plural_lookup (cat : gmap string (gmap string string))
    (lng key : string) (count : option Z) : option string :=
  match count with
  | Some n =>
      if (n =? 1)%Z then lookup_in cat lng key
      else match lookup_in cat lng (key +:+ "_plural") with
           | Some t => Some t
           | None => lookup_in cat lng key
           end
  | None => lookup_in cat lng key
  end.

(** The resource of a key: resources are in the namespace
    [translation]. *)
Definition resolve (cat : gmap string (gmap string string))
    (lng key : string) (count : option Z) : option string :=
  match ns_key key with
  | (Some ns, k) =>
      if String.eqb ns "translation" then plural_lookup cat lng k count else None
  | (None, k) => plural_lookup cat lng k count
  end.

Fixpoint trim_left (s : string) : string :=
  match s with
  | String c r => if Ascii.eqb c " "%char then trim_left r else s
  | EmptyString => EmptyString
  end.

(** The text before the first comma, and the text after it if any. *)
Fixpoint split_comma (s : string) : string * option string :=
  match s with
  | EmptyString => (EmptyString, None)
  | String c r =>
      if Ascii.eqb c ","%char then (EmptyString, Some r)
      else let '(a, b) := split_comma r in (String c a, b)
  end.

Definition reference (lng : string) (get : string -> val)
    (format : val -> string -> string -> res val) (inner : string) : res string :=
  match split_comma inner with
  | (name, None) => Ok (stringify (get (trim_left name)))
  | (name, Some f) =>
      match format (get (trim_left name)) (trim_left f) lng with
      | Ok v => Ok (stringify v)
      | Throw m => Throw m
      end
  end.

Fixpoint interpolate_fuel (fuel : nat) (lng : string) (get : string -> val)
    (format : val -> string -> string -> res val) (s : string) : res string :=
  match fuel with
  | O => Ok s
  | S fuel' =>
      match index 0 "{{" s with
      | None => Ok s
      | Some i =>
          match index i "}}" s with
          | None => Ok s
          | Some j =>
              match reference lng get format (substring (i + 2) (j - i - 2) s) with
              | Throw m => Throw m
              | Ok x =>
                  match interpolate_fuel fuel' lng get format
                          (substring (j + 2) (String.length s - j - 2) s) with
                  | Throw m => Throw m
                  | Ok rest => Ok (substring 0 i s +:+ x +:+ rest)
                  end
              end
          end
      end
  end.

Definition interpolate (lng : string) (get : string -> val)
    (format : val -> string -> string -> res val) (s : string) : res string :=
  interpolate_fuel (String.length s) lng get format s.

(** The key i18next makes of its first argument. *)
Definition key_string (key : val) : string :=
  match key with
  | VStr s => s
  | VNum n => pretty n
  | _ => ""
  end.

(** The language of a call: the [lng] of the options, or the language
    of the instance. *)
Definition language (lng : val) (options : props) : string :=
  match get_prop options "lng" with
  | VStr l => if String.eqb l "" then stringify lng else l
  | _ => stringify lng
  end.

Definition exists_ (cat : gmap string (gmap string string)) (lng key : val) : bool :=
  bool_decide (is_Some (resolve cat (stringify lng) (key_string key) None)).

(** [t(key, options)]: nothing for no key; the resource, the
    [defaultValue] of the options or the key without its namespace,
    interpolated with the options. *)
Definition t (cat : gmap string (gmap string string)) (lng : val) (h : heap)
    (key : val) (options : props) (format : val -> string -> string -> res val)
  : res val :=
  let k := key_string key in
  if String.eqb k "" then Ok (VStr "") else
  let l := language lng options in
  let count := match get_prop options "count" with
               | VNum n => Some n
               | _ => None
               end in
  let template :=
    match resolve cat l k count with
    | Some x => x
    | None => match get_prop options "defaultValue" with
              | VUndef => snd (ns_key k)
              | d => stringify d
              end
    end in
  match interpolate l (get_prop options) format template with
  | Ok x => Ok (VStr x)
  | Throw m => Throw m
  end.

Definition host : Host :=
  {| i18n_exists := exists_;
     i18n_t := t;
     moment_format := fun value tz locale pattern =>
       Ok (pattern +:+ "(" +:+ stringify value +:+ ")");
     humanize := fun value config =>
       Ok ("duration(" +:+ stringify value +:+ ")");
     number_format := fun locale precision currency value =>
       Ok (stringify value +:+ " " +:+ stringify currency) |}.

(** The shared engine and its world before any request: one
    configuration object, one i18next instance, resources for [en]. *)
Definition console : Logger := {| lg_name := 0; lg_clone := None |}.

Definition engine : Engine :=
  {| _config := 0; _engine := 0; _logger := console |}.

Definition catalog : gmap string (gmap string string) :=
  {[ "en" := {[ "howdy" := "Howdy"; "hello-john" := "Hello {{john}}" ]} ]}.

Definition world (h : heap) : World :=
  {| w_heap := h; w_configs := [[]]; w_instances := [VStr "en"];
     w_catalog := catalog; w_log := [] |}.

Definition loader : Loader :=
  {| ld_redis := None;
     ld_cache := {| lru_max := 500; lru_items := [] |};
     ld_logger := 0 |}.

(** [translate(object)] on the reference world: what it returns and
    the store afterwards. *)
Definition run (fuel : nat) (h : heap) (object : val) : option (tree * heap) :=
  match translate host fuel engine loader (world h) object "en" VNull with
  | Some (out, w, _) => Some (out, w_heap w)
  | None => None
  end.

End Ref.

(** * The vocabulary of the properties *)

(** ** Translation nodes *)

(** The shape [tv4] accepts: an object whose only enumerable property is
    [@translate]; that property is an object with a string [key]; its
    [quantity], [placeholders] and [fallback], when present, are a number,
    an object and a string.  Nothing is asked of the other properties of
    the [@translate] object. *)
Definition node_shape (h : heap) (v : val) : Prop :=
  exists ps tps,
    own_props h v = Some ps /\
    (forall kx, kx ∈ ps -> fst kx = TRANSLATE_SYMBOL) /\
    own_props h (get_prop ps TRANSLATE_SYMBOL) = Some tps /\
    (exists s, get_prop tps "key" = VStr s) /\
    (has_prop tps "quantity" = true -> exists n, get_prop tps "quantity" = VNum n) /\
    (has_prop tps "placeholders" = true ->
       is_Some (own_props h (get_prop tps "placeholders"))) /\
    (has_prop tps "fallback" = true -> exists s, get_prop tps "fallback" = VStr s).

(** A plain mapping of the store. *)
Definition plain_mapping (h : heap) (v : val) : option props :=
  match v with
  | VRef l => match h !! l with Some (OPlain ps) => Some ps | _ => None end
  | _ => None
  end.

(** What the specification allows inside the [@translate] object. *)
Definition spec_inner_property (h : heap) (kx : string * val) : bool :=
  if String.eqb (fst kx) "key" then
    match snd kx with VStr s => negb (String.eqb s "") | _ => false end
  else if String.eqb (fst kx) "quantity" then
    match snd kx with VNum _ => true | _ => false end
  else if String.eqb (fst kx) "placeholders" then
    bool_decide (is_Some (plain_mapping h (snd kx)))
  else if String.eqb (fst kx) "fallback" then
    match snd kx with VStr _ => true | _ => false end
  else false.

(** The validator as the specification words it: a plain mapping with
    exactly one key, [@translate], whose value is a plain mapping with a
    non-empty string [key] and nothing but [quantity] (number),
    [placeholders] (mapping) and [fallback] (string) besides. *)
Definition IsTranslationNode_spec (h : heap) (v : val) : bool :=
  match plain_mapping h v with
  | Some [(k, tr)] =>
      String.eqb k TRANSLATE_SYMBOL &&
      match plain_mapping h tr with
      | Some tps => has_prop tps "key" && forallb (spec_inner_property h) tps
      | None => false
      end
  | _ => false
  end.

(** What the inner schema asks of the [@translate] object. *)
Definition inner_shape (h : heap) (tps : props) : Prop :=
  (exists s, get_prop tps "key" = VStr s) /\
  (has_prop tps "quantity" = true -> exists n, get_prop tps "quantity" = VNum n) /\
  (has_prop tps "placeholders" = true ->
     is_Some (own_props h (get_prop tps "placeholders"))) /\
  (has_prop tps "fallback" = true -> exists s, get_prop tps "fallback" = VStr s).

(** A node with one more property inside its [@translate] object. *)
Definition inner_extra_heap : heap :=
  [ OPlain [("@translate", VRef 1)];
    OPlain [("key", VStr "howdy"); ("extra", VNum 1)] ].

(** ** Structure *)

(** A value the walker returns as it is: a primitive, or an object that
    is neither plain nor an array and has no [toJSON]. *)
Definition is_leaf (h : heap) (v : val) : Prop :=
  match v with
  | VRef l =>
      match h !! l with
      | Some (OPlain _) | Some (OArray _) | Some (OInst _ (Some _)) => False
      | _ => True
      end
  | _ => True
  end.

(** [congruent h v t]: the tree [t] has the structure of the value [v]
    of the store [h] wherever [v] holds no translation node: a plain
    object becomes an object with the same keys in the same order, an
    array an array of the same length, entry by entry; an object with a
    [toJSON] is read through what [toJSON] returns; any other value is
    itself.  At a translation node [t] may be anything. *)
Inductive congruent (h : heap) : val -> tree -> Prop :=
| cg_node v t :
    _validateNode h v = true -> congruent h v t
| cg_plain l ps ts :
    _validateNode h (VRef l) = false ->
    h !! l = Some (OPlain ps) ->
    map fst ts = map fst ps ->
    (forall i x t, map snd ps !! i = Some x -> map snd ts !! i = Some t ->
                   congruent h x t) ->
    congruent h (VRef l) (TObj ts)
| cg_array l es ts :
    _validateNode h (VRef l) = false ->
    h !! l = Some (OArray es) ->
    length ts = length es ->
    (forall i x t, es !! i = Some x -> ts !! i = Some t -> congruent h x t) ->
    congruent h (VRef l) (TArr ts)
| cg_hook l ps json t :
    _validateNode h (VRef l) = false ->
    h !! l = Some (OInst ps (Some json)) ->
    congruent h json t ->
    congruent h (VRef l) t
| cg_leaf v :
    _validateNode h v = false -> is_leaf h v -> congruent h v (TLeaf v).

(** [reads_as h v t]: [v] is made, down to its leaves, of plain objects
    and arrays, holds no translation node and no object with a [toJSON],
    and [t] is its content. *)
Inductive reads_as (h : heap) : val -> tree -> Prop :=
| ra_plain l ps ts :
    _validateNode h (VRef l) = false ->
    h !! l = Some (OPlain ps) ->
    map fst ts = map fst ps ->
    (forall i x t, map snd ps !! i = Some x -> map snd ts !! i = Some t ->
                   reads_as h x t) ->
    reads_as h (VRef l) (TObj ts)
| ra_array l es ts :
    _validateNode h (VRef l) = false ->
    h !! l = Some (OArray es) ->
    length ts = length es ->
    (forall i x t, es !! i = Some x -> ts !! i = Some t -> reads_as h x t) ->
    reads_as h (VRef l) (TArr ts)
| ra_leaf v :
    _validateNode h v = false -> is_leaf h v -> reads_as h v (TLeaf v).

(** [finite h v]: the walk of [v] comes to an end (the part of the store
    it visits has no cycle). *)
Inductive finite (h : heap) : val -> Prop :=
| fin_node v :
    _validateNode h v = true -> finite h v
| fin_plain l ps :
    _validateNode h (VRef l) = false ->
    h !! l = Some (OPlain ps) ->
    (forall x, x ∈ map snd ps -> finite h x) ->
    finite h (VRef l)
| fin_array l es :
    _validateNode h (VRef l) = false ->
    h !! l = Some (OArray es) ->
    (forall x, x ∈ es -> finite h x) ->
    finite h (VRef l)
| fin_hook l ps json :
    _validateNode h (VRef l) = false ->
    h !! l = Some (OInst ps (Some json)) ->
    finite h json ->
    finite h (VRef l)
| fin_leaf v :
    _validateNode h v = false -> is_leaf h v -> finite h v.

(** [resolved sk out]: [out] is [sk] with a value in place of each
    pending node. *)
Inductive resolved : tree -> tree -> Prop :=
| rs_leaf v : resolved (TLeaf v) (TLeaf v)
| rs_pending tr v : resolved (TPending tr) (TLeaf v)
| rs_obj ps ps' :
    map fst ps' = map fst ps ->
    (forall i x y, map snd ps !! i = Some x -> map snd ps' !! i = Some y ->
                   resolved x y) ->
    resolved (TObj ps) (TObj ps')
| rs_arr es es' :
    length es' = length es ->
    (forall i x y, es !! i = Some x -> es' !! i = Some y -> resolved x y) ->
    resolved (TArr es) (TArr es').

(** [null], [undefined], a number, a boolean, a string. *)
Definition is_scalar (v : val) : Prop :=
  match v with VRef _ => False | _ => True end.

(** The engine of the request the walk of [translate] runs with, and the
    state at that point. *)
Definition request_engine (w : World) (_engine0 : Engine) (locale : string)
    (timezone : val) : Engine * World :=
  let '(engine, w1) := clone w _engine0 in
  (engine, init (set_timezone (set_locale w1 engine (VStr locale)) engine timezone) engine).

(** The nested structure of the test suite, with a number beside the
    node: [{ nested: { object: { '@translate': { key: 'howdy' } } }, n: 1 }]. *)
Definition nested_heap : heap :=
  [ OPlain [("nested", VRef 1); ("n", VNum 1)];
    OPlain [("object", VRef 2)];
    OPlain [("@translate", VRef 3)];
    OPlain [("key", VStr "howdy")] ].

(** What [translate] returns for it. *)
Definition nested_out : tree :=
  TObj [("nested", TObj [("object", TLeaf (VStr "Howdy"))]); ("n", TLeaf (VNum 1))].

(** ** A second pass *)

(** Allocating the entries of an array or of an object, in order. *)
Definition embed_each {A} (f : A -> heap -> option (val * heap))
  : list A -> heap -> option (list val * heap) :=
  fix each (l : list A) (h : heap) : option (list val * heap) :=
    match l with
    | [] => Some ([], h)
    | x :: r =>
        match f x h with
        | None => None
        | Some (v, h1) =>
            match each r h1 with
            | None => None
            | Some (vs, h2) => Some (v :: vs, h2)
            end
        end
    end.

(** The result of [translate] as a value of the store again: the new
    objects and arrays are allocated.  A generator function left in the
    result is not a value of the model ([None]). *)
Fixpoint embed (t : tree) (h : heap) : option (val * heap) :=
  match t with
  | TLeaf v => Some (v, h)
  | TPending _ => None
  | TArr es =>
      match embed_each embed es h with
      | None => None
      | Some (vs, h') => Some (VRef (length h'), h' ++ [OArray vs])
      end
  | TObj ps =>
      match embed_each (fun kx => embed (snd kx)) ps h with
      | None => None
      | Some (vs, h') => Some (VRef (length h'), h' ++ [OPlain (zip (map fst ps) vs)])
      end
  end.

(** The content of a value without translation node and without
    [toJSON], computed. *)
Fixpoint reify (fuel : nat) (h : heap) (v : val) : option tree :=
  match fuel with
  | O => None
  | S fuel' =>
      if _validateNode h v then None
      else
        match v with
        | VRef l =>
            match h !! l with
            | Some (OPlain ps) =>
                match mapM (reify fuel' h) (map snd ps) with
                | Some ts => Some (TObj (zip (map fst ps) ts))
                | None => None
                end
            | Some (OArray es) =>
                match mapM (reify fuel' h) es with
                | Some ts => Some (TArr ts)
                | None => None
                end
            | Some (OInst _ (Some _)) => None
            | _ => Some (TLeaf v)
            end
        | _ => Some (TLeaf v)
        end
  end.

(** [translate(translate(v))]: the result of the first call, and the
    result of the call on it. *)
Definition translate_twice (H : Host) (fuel : nat) (e : Engine) (ld : Loader)
    (w : World) (v : val) (locale : string) (timezone : val)
  : option (tree * tree) :=
  match translate H fuel e ld w v locale timezone with
  | None => None
  | Some (out, w1, ld1) =>
      match embed out (w_heap w1) with
      | None => None
      | Some (v2, h2) =>
          match translate H fuel e ld1 (with_heap w1 h2) v2 locale timezone with
          | None => None
          | Some (out2, _, _) => Some (out, out2)
          end
      end
  end.

(** [{ '@translate': { key: { '@translate': { key: 'howdy' } } } }]: not
    a node (its key is not a string) until the node inside has been
    translated. *)
Definition node_in_key_heap : heap :=
  [ OPlain [("@translate", VRef 1)];
    OPlain [("key", VRef 2)];
    OPlain [("@translate", VRef 3)];
    OPlain [("key", VStr "howdy")] ].

(** The state after the first pass over the nested structure. *)
Definition nested_after : World * Loader :=
  match translate Ref.host 5 Ref.engine Ref.loader (Ref.world nested_heap)
          (VRef 0) "en" VNull with
  | Some (_, w1, ld1) => (w1, ld1)
  | None => (Ref.world nested_heap, Ref.loader)
  end.

(** ** Inputs *)

(** The singular form of the test suite:
    [{ '@translate': { key: 'plural-dog', quantity: 1,
                       placeholders: { dog: 'Rantanplan' } } }]. *)
Definition quantity_heap : heap :=
  [ OPlain [("@translate", VRef 1)];
    OPlain [("key", VStr "plural-dog"); ("quantity", VNum 1);
            ("placeholders", VRef 2)];
    OPlain [("dog", VStr "Rantanplan")] ].

(** The amount without currency of the test suite. *)
Definition currency_heap : heap :=
  [ OPlain [("@translate", VRef 1)];
    OPlain [("key", VStr "format-price");
            ("fallback", VStr "Le prix est de {{amount, currency}}");
            ("placeholders", VRef 2)];
    OPlain [("amount", VRef 3)];
    OPlain [("value", VNum 12); ("currency", VUndef)] ].

(** A request on the clone of the shared engine: [engine.locale = 'fr'],
    [engine.timezone = 'Europe/Paris']. *)
Definition request_fr (w : World) : Engine * World :=
  let '(c, w1) := clone w Ref.engine in
  (c, set_timezone (set_locale w1 c (VStr "fr")) c (VStr "Europe/Paris")).

(** Two keys, the first in the cache, the second only in the remote
    store. *)
Definition partial_loader : Loader :=
  {| ld_redis := Some (Connected {[ "b" := {[ "en" := "B" ]} ]});
     ld_cache := {| lru_max := 500; lru_items := [("a", {[ "en" := "A" ]})] |};
     ld_logger := 0 |}.

(** A loader without remote store, with one entry in its cache. *)
Definition offline_loader : Loader :=
  {| ld_redis := None;
     ld_cache := {| lru_max := 500; lru_items := [("howdy", {[ "en" := "Howdy" ]})] |};
     ld_logger := 0 |}.

(** A loader whose remote store is unreachable, with [howdy] in its
    cache and [hello-john] to be fetched. *)
Definition failing_loader : Loader :=
  {| ld_redis := Some (Failing "ECONNREFUSED");
     ld_cache := {| lru_max := 500; lru_items := [("howdy", {[ "en" := "Howdy" ]})] |};
     ld_logger := 7 |}.



(** ** Resolution *)

(** The generator functions left in a tree. *)
Fixpoint pendings (t : tree) : list val :=
  match t with
  | TLeaf _ => []
  | TPending tr => [tr]
  | TArr es => concat (map pendings es)
  | TObj ps => concat (map (fun kx => pendings (snd kx)) ps)
  end.



(** ** The nodes of a skeleton, one after the other *)

(** The generators of the nodes run one after the other, each on the
    state the one before left: what each returned and the state it
    left. *)
Fixpoint run_nodes (H : Host) (engine : Engine) (trs : list val) (w : World)
  : list (option val * World) :=
  match trs with
  | [] => []
  | tr :: r =>
      (translateGenerator H engine tr w)
        :: run_nodes H engine r (snd (translateGenerator H engine tr w))
  end.







(** * More of the library *)

(** ** [buildTranslationObject] ([lib/i18n.js]) *)

(** [!_.isEmpty(placeholders) && _.isPlainObject(placeholders)] *)
Definition plain_and_not_empty (h : heap) (placeholders : val) : bool :=
  match placeholders with
  | VRef l =>
      match h !! l with
      | Some (OPlain (_ :: _)) => true
      | _ => false
      end
  | _ => false
  end.

(** The third parameter, [{ fallback, quantity } = {}]: the default
    stands for [undefined] only. *)
Definition build_options (h : heap) (options : val) : res props :=
  match options with
  | VUndef => Ok []
  | _ => destructure h options
  end.

(** The properties of [_translate] when [buildTranslationObject]
    returns: [key], then [placeholders], [fallback] and [quantity] as the
    three tests let them in. *)
Definition _translate_props (h : heap) (key placeholders fallback quantity : val)
  : props :=
  let t0 := [("key", key)] in
  let t1 := if plain_and_not_empty h placeholders
            then set_prop t0 "placeholders" placeholders else t0 in
  let t2 := if is_undef fallback then t1 else set_prop t1 "fallback" fallback in
  if is_undef quantity then t2 else set_prop t2 "quantity" quantity.

(** [buildTranslationObject(key, placeholders, options)]: the node it
    returns and the store with the two objects it creates. *)
Definition buildTranslationObject (h : heap) (key placeholders options : val)
  : res (val * heap) :=
  match build_options h options with
  | Throw m => Throw m
  | Ok opts =>
      let '(h1, _translate) :=
        alloc h (OPlain (_translate_props h key placeholders
                           (get_prop opts "fallback") (get_prop opts "quantity"))) in
      let '(h2, node) := alloc h1 (OPlain [(TRANSLATE_SYMBOL, VRef _translate)]) in
      Ok (VRef node, h2)
  end.

(** [typeof v === 'string'], [v === undefined || typeof v === 'string'],
    [v === undefined || typeof v === 'number']. *)
Definition is_string (v : val) : Prop := exists s, v = VStr s.
Definition undefined_or_string (v : val) : Prop := v = VUndef \/ exists s, v = VStr s.
Definition undefined_or_number (v : val) : Prop := v = VUndef \/ exists n, v = VNum n.

(** The array of two nodes of the test suite. *)
Definition two_nodes_heap : heap :=
  [ OArray [VRef 1; VRef 3];
    OPlain [("@translate", VRef 2)];
    OPlain [("key", VStr "howdy")];
    OPlain [("@translate", VRef 4)];
    OPlain [("key", VStr "hello-john"); ("placeholders", VRef 5)];
    OPlain [("john", VStr "John")] ].

(** [buildTranslationObject('goodbye-john', { john: 'John' },
    { fallback: 'Good bye {{john}}' })] of the test suite: the
    placeholders and the options before the call. *)
Definition builder_heap : heap :=
  [ OPlain [("john", VStr "John")];
    OPlain [("fallback", VStr "Good bye {{john}}")] ].

(** [buildTranslationObject('dogs', { name: 'Rantanplan' }, { quantity: 1 })]
    of the documentation. *)
Definition dogs_heap : heap :=
  [ OPlain [("name", VStr "Rantanplan")];
    OPlain [("quantity", VNum 1)] ].

(** ** The loader, again *)

(** A locale or a key that is one step of a lodash path: it holds none
    of [.], [[] and []]. *)
Fixpoint one_step (s : string) : bool :=
  match s with
  | EmptyString => true
  | String c r =>
      negb (Ascii.eqb c "."%char || Ascii.eqb c "["%char || Ascii.eqb c "]"%char)
      && one_step r
  end.

(** [translations[locale][key]] *)
Definition template_at (translations : gmap string (gmap string string))
    (locale key : string) : option string :=
  translations !! locale ≫= (fun m => m !! key).

(** What the cache holds under a key ([{}] when it holds nothing). *)
Definition cached (ld : Loader) (key : string) : gmap string string :=
  default ∅ (assoc_str (lru_items (ld_cache ld)) key).

(** The loader with another [this.redis]. *)
Definition with_redis (ld : Loader) (r : option Redis) : Loader :=
  {| ld_redis := r; ld_cache := ld_cache ld; ld_logger := ld_logger ld |}.

(** [_.forOwn(translations, (templates, locale) =>
      engine.addTranslations(locale, templates))] *)
Definition add_all (w : World) (translations : gmap string (gmap string string))
  : World :=
  map_fold (fun locale templates w' => addTranslations w' locale templates)
           w translations.

(** A template the loader takes: a string that is not empty. *)
Definition taken (template : option string) : option string :=
  match template with
  | Some t => if String.eqb t "" then None else Some t
  | None => None
  end.

(** A loader whose cache holds the two keys of the test suite, on a
    remote store that is unreachable. *)
Definition warm_loader : Loader :=
  {| ld_redis := Some (Failing "ECONNREFUSED");
     ld_cache := {| lru_max := 500;
                    lru_items := [("howdy", {[ "en" := "Howdy" ]});
                                  ("hello-john", {[ "en" := "Hello {{john}}" ]})] |};
     ld_logger := 7 |}.

(** The row [multi.hmget(key, ...locales)] brings back from the store. *)
Definition hmget_row (db : gmap string (gmap string string)) (locales : list string)
    (key : string) : list (option string) :=
  map (fun f => db !! key ≫= fun m => m !! f) locales.

(** A loader with an empty cache on a store that has another template
    for [howdy] than the engine. *)
Definition renamed_loader : Loader :=
  {| ld_redis := Some (Connected {[ "howdy" := {[ "en" := "Hi" ]} ]});
     ld_cache := {| lru_max := 500; lru_items := [] |};
     ld_logger := 0 |}.

(** The state after [translate] of the nested structure with that
    loader. *)
Definition nested_after_renamed : World :=
  match translate Ref.host 5 Ref.engine renamed_loader (Ref.world nested_heap)
          (VRef 0) "en" VNull with
  | Some (_, w1, _) => w1
  | None => Ref.world nested_heap
  end.

(** The state after [translate] of the nested structure in French, for
    Paris. *)
Definition nested_after_fr : World :=
  match translate Ref.host 5 Ref.engine Ref.loader (Ref.world nested_heap)
          (VRef 0) "fr" (VStr "Europe/Paris") with
  | Some (_, w1, _) => w1
  | None => Ref.world nested_heap
  end.

(** A loader with an empty cache on the store of the test suite. *)
Definition cold_loader : Loader :=
  {| ld_redis := Some (Connected {[ "howdy" := {[ "en" := "Howdy"; "fr" := "Hey" ]};
                                    "hello-john" := {[ "en" := "Hello {{john}}" ]} ]});
     ld_cache := {| lru_max := 500; lru_items := [] |};
     ld_logger := 0 |}.

(** ** Resolution without effect *)

(** A node that has a number as [quantity] and [placeholders] to write
    [count] into. *)
Definition writes_count (ps : props) : Prop :=
  (exists q, get_prop ps "quantity" = VNum q) /\ get_prop ps "placeholders" <> VUndef.

(** The placeholders a node that writes no [count] is interpolated
    with: the new object [{ count: quantity }] when it has a quantity,
    its own otherwise. *)
Definition placeholders_of (w : World) (ps : props) : props :=
  match get_prop ps "quantity", get_prop ps "placeholders" with
  | VNum q, VUndef => [("count", VNum q)]
  | _, placeholders => default [] (own_props (w_heap w) placeholders)
  end.

(** [calm H engine w tr]: in the state [w], the [@translate] object [tr]
    writes no [count] and its interpolation returns. *)
Definition calm (H : Host) (engine : Engine) (w : World) (tr : val) : Prop :=
  exists ps s,
    own_props (w_heap w) tr = Some ps /\
    ~ writes_count ps /\
    lookup_or_fallback H w engine (get_prop ps "key") (get_prop ps "fallback")
      (placeholders_of w ps) = Ok s.

(** The engines keep their configurations, languages and resources. *)
Definition same_engines (w w' : World) : Prop :=
  w_configs w' = w_configs w /\
  w_instances w' = w_instances w /\
  w_catalog w' = w_catalog w.

(** ** The engine of a request *)

(** The language [init] gives the engine of a request: the [lng] of the
    configuration when it has one, the locale asked for, or the default
    one when that locale is the empty string. *)
Definition request_language (w : World) (e : Engine) (locale : string) : val :=
  match get_prop (config_of w e) "lng" with
  | VUndef => VStr (if String.eqb locale "" then DEFAULT_LOCALE else locale)
  | v => v
  end.

(** The configuration object of the shared engine after a request has
    set its locale and its time zone. *)
Definition request_config (w : World) (e : Engine) (locale : string)
    (timezone : val) : props :=
  set_prop (set_prop (config_of w e) "locale" (VStr locale)) "timezone" timezone.

(** ** Values that contain themselves *)

(** [child h v v']: the walk of [v], when [v] is not a node, goes on
    with [v']: a value of a plain object, an element of an array, or what
    [toJSON] returns. *)
Definition child (h : heap) (v v' : val) : Prop :=
  match v with
  | VRef l =>
      match h !! l with
      | Some (OPlain ps) => v' ∈ map snd ps
      | Some (OArray es) => v' ∈ es
      | Some (OInst _ (Some json)) => v' = json
      | _ => False
      end
  | _ => False
  end.

(** An object that is its own [self]. *)
Definition self_heap : heap := [OPlain [("self", VRef 0)]].

(** * Properties *)

(** ** Property lists *)

Lemma get_prop_set_eq' ps k v : get_prop (set_prop ps k v) k = v.
Proof.
  induction ps as [|[k' v'] r IH]; simpl.
  - by rewrite String.eqb_refl.
  - destruct (String.eqb k' k) eqn:E; simpl; rewrite E; [done|exact IH].
Qed.

Lemma has_prop_false_get ps k : has_prop ps k = false -> get_prop ps k = VUndef.
Proof.
  induction ps as [|[k' v] r IH]; simpl; [done|].
  destruct (String.eqb k' k); simpl; [done|exact IH].
Qed.

Lemma get_prop_set_ne ps k k' v :
  k <> k' -> get_prop (set_prop ps k v) k' = get_prop ps k'.
Proof.
  intros Hne. induction ps as [|[k0 v0] r IH]; simpl.
  - destruct (String.eqb k k') eqn:E; [|done].
    apply String.eqb_eq in E. contradiction.
  - destruct (String.eqb k0 k) eqn:E; simpl.
    + apply String.eqb_eq in E. subst k0.
      destruct (String.eqb k k') eqn:E'; [|done].
      apply String.eqb_eq in E'. contradiction.
    + by rewrite IH.
Qed.

(** ** The node validator *)

Lemma forallb_or_true {A} (f : A -> bool) (l : list A) :
  forallb (fun x => f x || true) l = true.
Proof. induction l as [|x r IH]; simpl; [done|]. by rewrite orb_true_r. Qed.

Lemma validate_leaf h ty v :
  validate h (Schema ty [] [] true) v = check_type h ty v.
Proof.
  cbn [validate forallb]. destruct (own_props h v) as [ps|]; [|by rewrite andb_true_r].
  by rewrite forallb_or_true, !andb_true_r.
Qed.

(** One step of [validate], with the loop over the sub-schemas as a
    [forallb]. *)
Lemma validate_unfold h ty req sps addl v :
  validate h (Schema ty req sps addl) v =
  check_type h ty v &&
  match own_props h v with
  | None => true
  | Some ps =>
      forallb (fun k => negb (is_undef (get_prop ps k))) req &&
      forallb (fun ks : string * schema =>
                 if has_prop ps (fst ks) then validate h (snd ks) (get_prop ps (fst ks))
                 else true) sps &&
      forallb (fun kv => mem_str (fst kv) (schema_keys sps) || addl) ps
  end.
Proof.
  cbn [validate]. destruct (own_props h v) as [ps|]; [|done].
  do 3 f_equal.
  induction sps as [|[k s'] r IH]; [done|].
  cbn [forallb fst snd]. by rewrite IH.
Qed.

Lemma forallb_only_translate (ps : props) :
  forallb (fun kv : string * val =>
             mem_str (fst kv) (schema_keys [(TRANSLATE_SYMBOL, TRANSLATE_INNER_SCHEMA)])
             || false) ps = true
  <-> (forall kx, kx ∈ ps -> fst kx = TRANSLATE_SYMBOL).
Proof.
  rewrite forallb_forall. split.
  - intros Hf kx Hin. apply list_elem_of_In in Hin. specialize (Hf _ Hin).
    unfold mem_str in Hf. simpl in Hf. rewrite !orb_false_r in Hf.
    by apply String.eqb_eq in Hf.
  - intros Hf kx Hin. apply list_elem_of_In in Hin.
    unfold mem_str. simpl. rewrite (Hf _ Hin). reflexivity.
Qed.

Lemma validate_inner h tr :
  validate h TRANSLATE_INNER_SCHEMA tr = true
  <-> exists tps, own_props h tr = Some tps /\ inner_shape h tps.
Proof.
  unfold TRANSLATE_INNER_SCHEMA.
  rewrite validate_unfold.
  unfold check_type at 1.
  destruct (own_props h tr) as [tps|] eqn:Hown; cbn [andb forallb fst snd].
  2:{ split; [done|]. by intros (? & ? & ?). }
  rewrite !validate_leaf, forallb_or_true, !andb_true_r.
  unfold inner_shape, check_type. split.
  - intros Hv. exists tps. split; [done|].
    apply andb_prop in Hv as [Hreq Hv].
    apply andb_prop in Hv as [Hkey Hv].
    apply andb_prop in Hv as [Hq Hv].
    apply andb_prop in Hv as [Hp Hf].
    repeat split.
    + destruct (has_prop tps "key") eqn:Hh.
      * destruct (get_prop tps "key"); try discriminate. eauto.
      * rewrite (has_prop_false_get _ _ Hh) in Hreq. discriminate.
    + intros Hh. rewrite Hh in Hq.
      destruct (get_prop tps "quantity"); try discriminate. eauto.
    + intros Hh. rewrite Hh in Hp.
      destruct (own_props h (get_prop tps "placeholders")); [eauto|discriminate].
    + intros Hh. rewrite Hh in Hf.
      destruct (get_prop tps "fallback"); try discriminate. eauto.
  - intros (tps' & Heq & (s & Hkey) & Hq & Hp & Hf).
    injection Heq as <-.
    rewrite Hkey. cbn [is_undef negb andb].
    assert (has_prop tps "key" = true) as ->.
    { destruct (has_prop tps "key") eqn:Hh; [done|].
      rewrite (has_prop_false_get _ _ Hh) in Hkey. discriminate. }
    assert ((if has_prop tps "quantity"
             then match get_prop tps "quantity" with VNum _ => true | _ => false end
             else true) = true) as ->.
    { destruct (has_prop tps "quantity"); [|done]. by destruct Hq as [n ->]. }
    assert ((if has_prop tps "placeholders"
             then match own_props h (get_prop tps "placeholders") with
                  | Some _ => true | None => false end
             else true) = true) as ->.
    { destruct (has_prop tps "placeholders"); [|done]. by destruct Hp as [x ->]. }
    assert ((if has_prop tps "fallback"
             then match get_prop tps "fallback" with VStr _ => true | _ => false end
             else true) = true) as ->.
    { destruct (has_prop tps "fallback"); [|done]. by destruct Hf as [x ->]. }
    done.
Qed.

(** C4 (amended): [_validateNode] answers true exactly for an object whose
    only enumerable property is [@translate], that property being an
    object with a string [key] (the empty string included) whose
    [quantity], [placeholders] and [fallback], when present, are a number,
    an object and a string; other properties of the [@translate] object
    are accepted. *)
Theorem validateNode_shape h v : _validateNode h v = true <-> node_shape h v.
Proof.
  unfold _validateNode, TRANSLATE_SCHEMA, node_shape.
  rewrite validate_unfold. cbn [forallb fst snd]. unfold check_type at 1.
  destruct (own_props h v) as [ps|] eqn:Hown; cbn [andb].
  2:{ split; [done|]. by intros (? & ? & ? & ?). }
  rewrite !andb_true_r.
  split.
  - intros Hv.
    apply andb_prop in Hv as [Hv Hall].
    apply andb_prop in Hv as [Hreq Hin].
    pose proof (proj1 (forallb_only_translate ps) Hall) as Hall'.
    destruct (has_prop ps TRANSLATE_SYMBOL) eqn:Hh.
    + apply validate_inner in Hin as (tps & Htps & Hshape).
      exists ps, tps. destruct Hshape as (Hk & Hq & Hp & Hf).
      split_and!; done.
    + rewrite (has_prop_false_get _ _ Hh) in Hreq. discriminate.
  - intros (ps' & tps & [= <-] & Hall & Htps & Hshape).
    apply andb_true_intro. split.
    2:{ exact (proj2 (forallb_only_translate ps) Hall). }
    apply andb_true_intro. split.
    + destruct (get_prop ps TRANSLATE_SYMBOL); try discriminate. done.
    + assert (validate h TRANSLATE_INNER_SCHEMA (get_prop ps TRANSLATE_SYMBOL) = true)
        as Hin by (apply validate_inner; exists tps; done).
      rewrite Hin. by destruct (has_prop ps TRANSLATE_SYMBOL).
Qed.

(** C4, as stated, fails: the validator accepts a node with an additional
    key inside the [@translate] object, which the wording of the
    specification rejects. *)
Lemma validateNode_not_spec :
  ~ (forall h v, _validateNode h v = IsTranslationNode_spec h v).
Proof.
  intros Hc. specialize (Hc inner_extra_heap (VRef 0)).
  vm_compute in Hc. discriminate.
Qed.

(** The empty key is accepted as well. *)
Example validateNode_empty_key :
  _validateNode [OPlain [("@translate", VRef 1)]; OPlain [("key", VStr "")]] (VRef 0)
  = true.
Proof. reflexivity. Qed.

(** The rejections of the test suite: an additional outer key, a
    [quantity] that is a string. *)
Example validateNode_outer_extra :
  _validateNode
    [OPlain [("@translate", VRef 1); ("wrong", VStr "key")];
     OPlain [("key", VStr "howdy")]] (VRef 0) = false.
Proof. reflexivity. Qed.

Example validateNode_quantity_string :
  _validateNode
    [OPlain [("@translate", VRef 1)];
     OPlain [("key", VStr "howdy"); ("quantity", VStr "my quantity")]] (VRef 0)
  = false.
Proof. reflexivity. Qed.

(** ** The walker keeps the structure *)

(** Induction on trees, with the hypothesis for every child. *)
Lemma tree_ind' (P : tree -> Prop) :
  (forall v, P (TLeaf v)) ->
  (forall ps, Forall (fun kt => P (snd kt)) ps -> P (TObj ps)) ->
  (forall es, Forall P es -> P (TArr es)) ->
  (forall tr, P (TPending tr)) ->
  forall t, P t.
Proof.
  intros Hleaf Hobj Harr Hpend.
  fix IH 1. intros [v|ps|es|tr].
  - apply Hleaf.
  - apply Hobj. induction ps as [|[k x] r IHr]; constructor; [apply IH|exact IHr].
  - apply Harr. induction es as [|x r IHr]; constructor; [apply IH|exact IHr].
  - apply Hpend.
Qed.

Lemma walk_each_Forall2 walk vs ts ks :
  walk_each walk vs = Some (ts, ks) ->
  Forall2 (fun v t => exists ks', walk v = Some (t, ks')) vs ts.
Proof.
  revert ts ks. induction vs as [|v r IH]; intros ts ks; simpl.
  - intros [= <- <-]. constructor.
  - destruct (walk v) as [[t k1]|] eqn:Hv; [|done].
    destruct (walk_each walk r) as [[ts' k2]|] eqn:Hr; [|done].
    intros [= <- <-]. constructor; [eauto|]. by eapply IH.
Qed.

Lemma walk_congruent fuel h v sk ks :
  _walk fuel h v = Some (sk, ks) -> congruent h v sk.
Proof.
  revert v sk ks. induction fuel as [|fuel IH]; intros v sk ks; [done|].
  simpl. destruct (_validateNode h v) eqn:Hval.
  { intros _. by apply cg_node. }
  assert (forall vs ts ks',
             walk_each (_walk fuel h) vs = Some (ts, ks') ->
             length ts = length vs /\
             forall i x t, vs !! i = Some x -> ts !! i = Some t -> congruent h x t)
    as Heach.
  { intros vs ts ks' Hw. apply walk_each_Forall2 in Hw. split.
    - symmetry. by eapply Forall2_length.
    - intros i x t Hx Ht.
      destruct (Forall2_lookup_lr _ _ _ _ _ _ Hw Hx Ht) as [k' Hk]. by eapply IH. }
  destruct v as [| | | | |l]; try (intros [= <- <-]; by apply cg_leaf).
  destruct (h !! l) as [[ps|es|ps [json|]|m ps]|] eqn:Hl.
  - destruct (walk_each (_walk fuel h) (map snd ps)) as [[ts ks']|] eqn:Hw; [|done].
    intros [= <- <-]. apply Heach in Hw as [Hlen Hall].
    rewrite length_map in Hlen.
    eapply cg_plain; [done|done| |].
    + apply fst_zip. rewrite length_map. lia.
    + intros i x t Hx Ht. rewrite snd_zip in Ht by (rewrite length_map; lia). eauto.
  - destruct (walk_each (_walk fuel h) es) as [[ts ks']|] eqn:Hw; [|done].
    intros [= <- <-]. apply Heach in Hw as [Hlen Hall].
    by eapply cg_array.
  - intros Hj. eapply cg_hook; [done|done|]. by eapply IH.
  - intros [= <- <-]. apply cg_leaf; [done|]. simpl. by rewrite Hl.
  - intros [= <- <-]. apply cg_leaf; [done|]. simpl. by rewrite Hl.
  - intros [= <- <-]. apply cg_leaf; [done|]. simpl. by rewrite Hl.
Qed.

Lemma co_each_Forall2 {A B} (f : A -> World -> option B * World) l w r w' :
  co_each f l w = (Some r, w') ->
  Forall2 (fun x y => exists w1 w2, f x w1 = (Some y, w2)) l r.
Proof.
  revert w r w'. induction l as [|x l IH]; intros w r w'; simpl.
  - intros [= <- <-]. constructor.
  - destruct (f x w) as [x' w1] eqn:Hx.
    destruct (co_each f l w1) as [r' w2] eqn:Hr.
    destruct x' as [a|]; [|done]. destruct r' as [b|]; [|done].
    intros [= <- <-]. constructor; [eauto|]. by eapply IH.
Qed.

Lemma co_resolve_resolved H engine sk :
  forall w out w', co_resolve H engine sk w = (Some out, w') -> resolved sk out.
Proof.
  induction sk as [v|ps IH|es IH|tr] using tree_ind'; intros w out w'; simpl.
  - intros [= <- <-]. constructor.
  - destruct (co_each _ ps w) as [r w1] eqn:Hr.
    destruct r as [r|]; [|done]. intros [= <- <-].
    apply co_each_Forall2 in Hr.
    assert (Forall2 (fun kx ky => fst ky = fst kx /\ resolved (snd kx) (snd ky)) ps r)
      as HF.
    { clear -IH Hr. induction Hr as [|kx ky ps r (w1 & w2 & Hf) Hr IHr]; [constructor|].
      inversion IH as [|? ? Hhd Htl]; subst. constructor; [|by apply IHr].
      destruct (co_resolve H engine (snd kx) w1) as [[x'|] w3] eqn:Hc; [|done].
      simpl in Hf. injection Hf as <- <-. simpl. split; [done|]. by eapply Hhd. }
    apply rs_obj.
    + clear -HF. induction HF as [|? ? ? ? [Hfst _] _ IHF]; [done|].
      simpl. by rewrite Hfst, IHF.
    + intros i x y Hx Hy. rewrite list_lookup_fmap in Hx, Hy.
      destruct (ps !! i) as [kx|] eqn:Hkx; [|done].
      destruct (r !! i) as [ky|] eqn:Hky; [|done].
      simpl in Hx, Hy. injection Hx as <-. injection Hy as <-.
      by destruct (Forall2_lookup_lr _ _ _ _ _ _ HF Hkx Hky).
  - destruct (co_each _ es w) as [r w1] eqn:Hr.
    destruct r as [r|]; [|done]. intros [= <- <-].
    apply co_each_Forall2 in Hr.
    assert (Forall2 resolved es r) as HF.
    { clear -IH Hr. induction Hr as [|x y es r (w1 & w2 & Hf) Hr IHr]; [constructor|].
      inversion IH as [|? ? Hhd Htl]; subst. constructor; [by eapply Hhd|by apply IHr]. }
    apply rs_arr.
    + symmetry. by eapply Forall2_length.
    + intros i x y Hx Hy. by eapply Forall2_lookup_lr.
  - destruct (translateGenerator H engine tr w) as [[v|] w1]; [|done].
    intros [= <- <-]. constructor.
Qed.

Lemma congruent_resolved h v sk :
  congruent h v sk -> forall out, resolved sk out -> congruent h v out.
Proof.
  induction 1 as [v t Hv|l ps ts Hv Hl Hk Hall IH|l es ts Hv Hl Hlen Hall IH
                 |l ps json t Hv Hl Hc IH|v Hv Hleaf]; intros out Hr.
  - by apply cg_node.
  - inversion Hr as [| |? ps' Hk' Hall'|]; subst.
    eapply cg_plain; [done|done|congruence|].
    intros i x t Hx Ht.
    assert (is_Some (map snd ts !! i)) as [m Hm].
    { apply lookup_lt_is_Some. apply lookup_lt_Some in Hx.
      rewrite length_map in *. rewrite <- (length_map fst ts), Hk, length_map. done. }
    eapply IH; eauto.
  - inversion Hr as [| | |? es' Hlen' Hall']; subst.
    eapply cg_array; [done|done|congruence|].
    intros i x t Hx Ht.
    assert (is_Some (ts !! i)) as [m Hm].
    { apply lookup_lt_is_Some. apply lookup_lt_Some in Hx. lia. }
    eapply IH; eauto.
  - eapply cg_hook; eauto.
  - inversion Hr; subst. by apply cg_leaf.
Qed.

Lemma request_engine_heap w e locale timezone :
  w_heap (snd (request_engine w e locale timezone)) = w_heap w.
Proof. reflexivity. Qed.

Lemma translate_unfold H fuel e ld w v locale timezone :
  translate H fuel e ld w v locale timezone =
  match _walk fuel (w_heap w) v with
  | None => None
  | Some (res, keys) =>
      let '(engine, w4) := request_engine w e locale timezone in
      let '(_, ld', w5) := load w4 ld engine keys in
      let '(out, w6) := yield_res H engine res w5 in
      Some (out, w6, ld')
  end.
Proof. reflexivity. Qed.

Lemma yield_res_congruent H engine h v res w out w' :
  congruent h v res -> yield_res H engine res w = (out, w') -> congruent h v out.
Proof.
  intros Hc. unfold yield_res.
  destruct (co_resolve H engine res w) as [[t|] w1] eqn:Hco.
  - assert (congruent h v t) as Ht.
    { eapply congruent_resolved; [done|]. by eapply co_resolve_resolved. }
    destruct res; intros [= <- <-]; done.
  - destruct res; intros [= <- <-]; done.
Qed.

Lemma translate_congruent H fuel e ld w v locale timezone out w' ld' :
  translate H fuel e ld w v locale timezone = Some (out, w', ld') ->
  congruent (w_heap w) v out.
Proof.
  rewrite translate_unfold.
  destruct (_walk fuel (w_heap w) v) as [[res keys]|] eqn:Hw; [|done].
  destruct (request_engine w e locale timezone) as [engine w4].
  destruct (load w4 ld engine keys) as [[tr ld1] w5].
  destruct (yield_res H engine res w5) as [out' w6] eqn:Hy.
  intros [= <- <- <-].
  eapply yield_res_congruent; [|done]. by eapply walk_congruent.
Qed.

(** *** Enough fuel *)

Lemma walk_each_total (f : nat -> val -> option (tree * list string)) vs :
  (forall x, x ∈ vs -> exists n, forall fuel, n <= fuel -> is_Some (f fuel x)) ->
  exists n, forall fuel, n <= fuel -> is_Some (walk_each (f fuel) vs).
Proof.
  induction vs as [|v r IH]; intros Hall.
  - exists 0. intros fuel _. simpl. eauto.
  - destruct (Hall v) as [n1 H1]; [by left|].
    destruct IH as [n2 H2]; [intros x Hx; apply Hall; by right|].
    exists (n1 `max` n2). intros fuel Hf. simpl.
    destruct (H1 fuel) as [[t k1] ->]; [lia|].
    destruct (H2 fuel) as [[ts k2] ->]; [lia|]. eauto.
Qed.

Lemma walk_total h v :
  finite h v -> exists n, forall fuel, n <= fuel -> is_Some (_walk fuel h v).
Proof.
  induction 1 as [v Hv|l ps Hv Hl Hall IH|l es Hv Hl Hall IH
                 |l ps json Hv Hl Hj IH|v Hv Hleaf].
  - exists 1. intros [|fuel] Hf; [lia|]. simpl. rewrite Hv. eauto.
  - destruct (walk_each_total (fun fuel => _walk fuel h) (map snd ps) IH) as [n Hn].
    exists (S n). intros [|fuel] Hf; [lia|]. simpl. rewrite Hv, Hl.
    destruct (Hn fuel) as [[ts ks] ->]; [lia|]. eauto.
  - destruct (walk_each_total (fun fuel => _walk fuel h) es IH) as [n Hn].
    exists (S n). intros [|fuel] Hf; [lia|]. simpl. rewrite Hv, Hl.
    destruct (Hn fuel) as [[ts ks] ->]; [lia|]. eauto.
  - destruct IH as [n Hn].
    exists (S n). intros [|fuel] Hf; [lia|]. simpl. rewrite Hv, Hl.
    apply Hn. lia.
  - exists 1. intros [|fuel] Hf; [lia|]. simpl. rewrite Hv.
    destruct v as [| | | | |l]; eauto.
    simpl in Hleaf. destruct (h !! l) as [[ps|es|ps [json|]|m ps]|]; try done; eauto.
Qed.

Lemma translate_total H e ld w v locale timezone :
  finite (w_heap w) v ->
  exists n, forall fuel, n <= fuel ->
    is_Some (translate H fuel e ld w v locale timezone).
Proof.
  intros Hfin. destruct (walk_total _ _ Hfin) as [n Hn].
  exists n. intros fuel Hf. rewrite translate_unfold.
  destruct (Hn fuel Hf) as [[res keys] ->].
  destruct (request_engine w e locale timezone) as [engine w4].
  destruct (load w4 ld engine keys) as [[tr ld1] w5].
  destruct (yield_res H engine res w5) as [out' w6]. eauto.
Qed.

(** *** Values without translation node *)

Lemma list_eq_fst_snd {A B} (l k : list (A * B)) :
  map fst l = map fst k -> map snd l = map snd k -> l = k.
Proof.
  revert k. induction l as [|[a b] l IH]; intros [|[a' b'] k]; simpl; try done.
  intros [= -> Hf] [= -> Hs]. f_equal. by apply IH.
Qed.

Lemma reads_as_congruent h v t :
  reads_as h v t -> forall out, congruent h v out -> out = t.
Proof.
  induction 1 as [l ps ts Hv Hl Hk Hall IH|l es ts Hv Hl Hlen Hall IH|v Hv Hleaf];
    intros out Hc.
  - inversion Hc as [? ? Hv'|? ps' ts' _ Hl' Hk' Hall'|? es' ts' _ Hl' _ _
                    |? ps' json ? _ Hl' _|? _ Hleaf']; subst.
    + congruence.
    + assert (ps' = ps) as -> by congruence. f_equal.
      apply list_eq_fst_snd; [congruence|].
      apply list_eq_same_length with (length ps).
      * rewrite length_map, <- (length_map fst), Hk, length_map. done.
      * rewrite length_map, <- (length_map fst), Hk', length_map. done.
      * intros i x y Hi Hx Hy.
        assert (is_Some (map snd ps !! i)) as [m Hm].
        { apply lookup_lt_is_Some. by rewrite length_map. }
        eapply IH; eauto.
    + congruence.
    + congruence.
    + simpl in Hleaf'. by rewrite Hl in Hleaf'.
  - inversion Hc as [? ? Hv'|? ps' ts' _ Hl' _ _|? es' ts' _ Hl' Hlen' Hall'
                    |? ps' json ? _ Hl' _|? _ Hleaf']; subst.
    + congruence.
    + congruence.
    + assert (es' = es) as -> by congruence. f_equal.
      apply list_eq_same_length with (length es); [done|done|].
      intros i x y Hi Hx Hy.
      assert (is_Some (es !! i)) as [m Hm] by (by apply lookup_lt_is_Some).
      eapply IH; eauto.
    + congruence.
    + simpl in Hleaf'. by rewrite Hl in Hleaf'.
  - inversion Hc as [? ? Hv'|? ps' ts' _ Hl' _ _|? es' ts' _ Hl' _ _
                    |? ps' json ? _ Hl' _|? _ Hleaf']; subst.
    + congruence.
    + simpl in Hleaf. by rewrite Hl' in Hleaf.
    + simpl in Hleaf. by rewrite Hl' in Hleaf.
    + simpl in Hleaf. by rewrite Hl' in Hleaf.
    + done.
Qed.

Lemma reads_as_finite h v t : reads_as h v t -> finite h v.
Proof.
  induction 1 as [l ps ts Hv Hl Hk Hall IH|l es ts Hv Hl Hlen Hall IH|v Hv Hleaf].
  - eapply fin_plain; [done|done|]. intros x Hx.
    apply list_elem_of_lookup in Hx as [i Hi].
    assert (is_Some (map snd ts !! i)) as [m Hm].
    { apply lookup_lt_is_Some. apply lookup_lt_Some in Hi.
      rewrite length_map in *. rewrite <- (length_map fst ts), Hk, length_map. done. }
    eauto.
  - eapply fin_array; [done|done|]. intros x Hx.
    apply list_elem_of_lookup in Hx as [i Hi].
    assert (is_Some (ts !! i)) as [m Hm].
    { apply lookup_lt_is_Some. apply lookup_lt_Some in Hi. lia. }
    eauto.
  - by apply fin_leaf.
Qed.

Lemma scalar_not_node h v : is_scalar v -> _validateNode h v = false.
Proof. by destruct v. Qed.

Lemma translate_scalar H fuel e ld w v locale timezone :
  is_scalar v ->
  exists w' ld', translate H (S fuel) e ld w v locale timezone = Some (TLeaf v, w', ld').
Proof.
  intros Hs. rewrite translate_unfold.
  assert (_walk (S fuel) (w_heap w) v = Some (TLeaf v, [])) as ->.
  { simpl. rewrite (scalar_not_node _ _ Hs). by destruct v. }
  destruct (request_engine w e locale timezone) as [engine w4].
  destruct (load w4 ld engine []) as [[tr ld1] w5]. simpl. eauto.
Qed.

(** C1: whatever [translate] returns for [v] is congruent with [v]: the
    same keys in the same order for plain objects, the same length and
    order for arrays, the same value at every leaf, outside the translation
    nodes (an object with a [toJSON] being read through it); when [v]
    holds no translation node at all, the result is the content of [v];
    the call returns as soon as the walk is given enough fuel; and a
    scalar ([null], [undefined], a number, a boolean, a string) comes back
    as itself. *)
Theorem translate_keeps_structure H e ld w v locale timezone :
  (forall fuel out w' ld',
      translate H fuel e ld w v locale timezone = Some (out, w', ld') ->
      congruent (w_heap w) v out) /\
  (forall t fuel out w' ld',
      reads_as (w_heap w) v t ->
      translate H fuel e ld w v locale timezone = Some (out, w', ld') ->
      out = t) /\
  (finite (w_heap w) v ->
   exists n, forall fuel, n <= fuel ->
     is_Some (translate H fuel e ld w v locale timezone)) /\
  (is_scalar v ->
   forall fuel, exists w' ld',
     translate H (S fuel) e ld w v locale timezone = Some (TLeaf v, w', ld')).
Proof.
  split_and!.
  - intros fuel out w' ld'. apply translate_congruent.
  - intros t fuel out w' ld' Hr Ht.
    eapply reads_as_congruent; [done|]. by eapply translate_congruent.
  - apply translate_total.
  - intros Hs fuel. by apply translate_scalar.
Qed.

Lemma translate_keeps_structure_witness :
  congruent nested_heap (VRef 0) nested_out.
Proof.
  eapply (proj1 (translate_keeps_structure Ref.host Ref.engine Ref.loader
                   (Ref.world nested_heap) (VRef 0) "en" VNull) 5).
  vm_compute. reflexivity.
Defined.

(** ** A second pass over the result *)

Lemma reify_reads_as fuel h v t : reify fuel h v = Some t -> reads_as h v t.
Proof.
  revert v t. induction fuel as [|fuel IH]; intros v t; [done|].
  simpl. destruct (_validateNode h v) eqn:Hval; [done|].
  assert (forall vs ts, mapM (reify fuel h) vs = Some ts ->
             length ts = length vs /\
             forall i x y, vs !! i = Some x -> ts !! i = Some y -> reads_as h x y)
    as Heach.
  { intros vs ts Hm. apply mapM_Some in Hm. split.
    - symmetry. by eapply Forall2_length.
    - intros i x y Hx Hy. apply IH.
      exact (Forall2_lookup_lr _ _ _ _ _ _ Hm Hx Hy). }
  destruct v as [| | | | |l]; try (intros [= <-]; by apply ra_leaf).
  destruct (h !! l) as [[ps|es|ps [json|]|m ps]|] eqn:Hl.
  - destruct (mapM (reify fuel h) (map snd ps)) as [ts|] eqn:Hm; [|done].
    intros [= <-]. apply Heach in Hm as [Hlen Hall]. rewrite length_map in Hlen.
    eapply ra_plain; [done|done| |].
    + apply fst_zip. rewrite length_map. lia.
    + intros i x y Hx Hy. rewrite snd_zip in Hy by (rewrite length_map; lia). eauto.
  - destruct (mapM (reify fuel h) es) as [ts|] eqn:Hm; [|done].
    intros [= <-]. apply Heach in Hm as [Hlen Hall]. by eapply ra_array.
  - done.
  - intros [= <-]. apply ra_leaf; [done|]. simpl. by rewrite Hl.
  - intros [= <-]. apply ra_leaf; [done|]. simpl. by rewrite Hl.
  - intros [= <-]. apply ra_leaf; [done|]. simpl. by rewrite Hl.
Qed.

(** C10, as stated, fails: the first pass leaves
    [{ '@translate': { key: 'Howdy' } }], which the second pass takes for a
    translation node and replaces by a string. *)
Lemma translate_not_idempotent :
  exists out1 out2,
    translate_twice Ref.host 5 Ref.engine Ref.loader (Ref.world node_in_key_heap)
      (VRef 0) "en" VNull = Some (out1, out2) /\
    out1 = TObj [("@translate", TObj [("key", TLeaf (VStr "Howdy"))])] /\
    out2 = TLeaf (VStr "Howdy") /\
    out1 <> out2.
Proof.
  eexists _, _. split; [vm_compute; reflexivity|]. split_and!; done.
Qed.

(** C10 (amended): when the result of [translate], taken as a value
    again, holds no translation node and no object with a [toJSON], and
    its content is [t], a second [translate] returns [t]. *)
Theorem translate_twice_clean H fuel e ld w v locale timezone out w1 ld1 v2 h2 t :
  translate H fuel e ld w v locale timezone = Some (out, w1, ld1) ->
  embed out (w_heap w1) = Some (v2, h2) ->
  reads_as h2 v2 t ->
  exists n, forall fuel2, n <= fuel2 ->
    exists w2 ld2,
      translate H fuel2 e ld1 (with_heap w1 h2) v2 locale timezone
      = Some (t, w2, ld2).
Proof.
  intros _ _ Hr.
  destruct (translate_total H e ld1 (with_heap w1 h2) v2 locale timezone)
    as [n Hn]; [by eapply reads_as_finite|].
  exists n. intros fuel2 Hf. destruct (Hn fuel2 Hf) as [[[out2 w2] ld2] Ht].
  exists w2, ld2. rewrite Ht. do 3 f_equal.
  eapply reads_as_congruent; [done|].
  exact (translate_congruent _ _ _ _ _ _ _ _ _ _ _ Ht).
Qed.

Lemma translate_twice_clean_witness :
  exists n, forall fuel2, n <= fuel2 ->
    exists w2 ld2,
      translate Ref.host fuel2 Ref.engine (snd nested_after)
        (with_heap (fst nested_after)
           (nested_heap ++
              [OPlain [("object", VStr "Howdy")];
               OPlain [("nested", VRef 4); ("n", VNum 1)]]))
        (VRef 5) "en" VNull
      = Some (nested_out, w2, ld2).
Proof.
  refine (translate_twice_clean Ref.host 5 Ref.engine Ref.loader
            (Ref.world nested_heap) (VRef 0) "en" VNull
            nested_out (fst nested_after) (snd nested_after)
            (VRef 5) _ nested_out _ _ _).
  - vm_compute. reflexivity.
  - vm_compute. reflexivity.
  - apply (reify_reads_as 5). vm_compute. reflexivity.
Defined.

(** ** What a call writes into its argument *)

(** C2: the code at the failing inputs.  After [translate], the
    [placeholders] object of the argument has a [count] property it had
    not, and the [@translate] object of a node whose formatter raised has
    an [error] property it had not. *)
Theorem translate_writes_into_input :
  (exists out h',
      Ref.run 5 quantity_heap (VRef 0) = Some (out, h') /\
      quantity_heap !! 2 = Some (OPlain [("dog", VStr "Rantanplan")]) /\
      h' !! 2 = Some (OPlain [("dog", VStr "Rantanplan"); ("count", VNum 1)])) /\
  (exists out h',
      Ref.run 5 currency_heap (VRef 0) = Some (out, h') /\
      own_props currency_heap (VRef 1) ≫= (fun ps => Some (has_prop ps "error"))
      = Some false /\
      own_props h' (VRef 1) ≫= (fun ps => Some (has_prop ps "error")) = Some true).
Proof.
  split; eexists _, _; (split; [vm_compute; reflexivity|]); split; reflexivity.
Qed.

(** ** Clones of the engine *)

(** C3: the code at the failing input.  The clone is built on the
    configuration object of the shared engine, so the time zone set on
    the clone is the time zone of the shared engine afterwards; its
    locale and its logger are the ones it had. *)
Theorem clone_shares_timezone :
  get_timezone (Ref.world []) Ref.engine = VUndef /\
  get_timezone (snd (request_fr (Ref.world []))) Ref.engine = VStr "Europe/Paris" /\
  get_locale (snd (request_fr (Ref.world []))) Ref.engine
  = get_locale (Ref.world []) Ref.engine.
Proof. split_and!; reflexivity. Qed.

(** What does hold of a clone: the locale of the original is the one it
    had, whatever is set on the clone. *)
Lemma clone_keeps_locale w e locale timezone :
  _engine e < length (w_instances w) ->
  let '(c, w1) := clone w e in
  get_locale (set_timezone (set_locale w1 c locale) c timezone) e = get_locale w e.
Proof.
  intros Hlt. unfold clone, get_locale, set_timezone, set_locale. simpl.
  rewrite list_lookup_insert_ne by lia.
  by rewrite lookup_app_l.
Qed.

(** ** The loader *)

(** C8: the code at the failing input.  The rows of the batch, fetched
    for the keys the cache missed, are read against the list of all the
    keys: the template fetched for [b] is returned and cached under [a],
    and nothing is returned for [b]. *)
Theorem load_zips_with_all_keys :
  let '(translations, ld', _) :=
    load (Ref.world []) partial_loader Ref.engine ["a"; "b"] in
  translations !! "en" ≫= (fun m => m !! "a") = Some "B" /\
  translations !! "en" ≫= (fun m => m !! "b") = None /\
  fst (getItemFromCache ld' "a" []) !! "en" = Some "B" /\
  fst (getItemFromCache ld' "b" []) !! "en" = None.
Proof. vm_compute. split_and!; reflexivity. Qed.

(** *** The cache *)

Lemma assoc_str_trim_head max key v items :
  assoc_str (lru_trim max ((key, v) :: items)) key = Some v.
Proof.
  unfold lru_trim. destruct max; simpl; by rewrite String.eqb_refl.
Qed.

Lemma getItemFromCache_all ld key :
  fst (getItemFromCache ld key []) = default ∅ (assoc_str (lru_items (ld_cache ld)) key).
Proof.
  unfold getItemFromCache, lru_get.
  by destruct (assoc_str (lru_items (ld_cache ld)) key).
Qed.

Lemma getItemFromCache_pick ld key locales :
  locales <> [] ->
  fst (getItemFromCache ld key locales) = pick (fst (getItemFromCache ld key [])) locales.
Proof.
  intros Hne. unfold getItemFromCache, lru_get.
  destruct (assoc_str (lru_items (ld_cache ld)) key); by destruct locales.
Qed.

(** Reading the entry after a write: the templates written, over the
    ones the entry had. *)
Lemma get_after_set ld key translations :
  fst (getItemFromCache (setItemToCache ld key translations) key [])
  = translations ∪ fst (getItemFromCache ld key []).
Proof.
  rewrite !getItemFromCache_all. unfold setItemToCache, getItemFromCache.
  destruct (lru_get (ld_cache ld) key) as [found c] eqn:Hg. simpl.
  unfold lru_set. simpl. rewrite assoc_str_trim_head. simpl.
  f_equal. unfold lru_get in Hg.
  destruct (assoc_str (lru_items (ld_cache ld)) key); by injection Hg as <- <-.
Qed.

Lemma pick_lookup (value : gmap string string) locales l :
  pick value locales !! l = if decide (l ∈ locales) then value !! l else None.
Proof.
  unfold pick. destruct (decide (l ∈ locales)) as [Hin|Hnin].
  - destruct (value !! l) as [x|] eqn:Hl.
    + by apply map_lookup_filter_Some.
    + apply map_lookup_filter_None. by left.
  - apply map_lookup_filter_None. right. intros x _. exact Hnin.
Qed.

(** C9: after [Set(key, {l1: t1})] and [Set(key, {l2: t2})], [Get(key)]
    holds [t2] under [l2], [t1] under [l1] when the locales differ, and
    what the entry had under every other locale; [Get(key, locales...)]
    holds, of the entry, the templates of the locales asked for and no
    other; [Get(key)] without locale is the whole entry. *)
Theorem cache_set_merges ld key l1 t1 l2 t2 :
  let ld2 := setItemToCache (setItemToCache ld key {[ l1 := t1 ]}) key {[ l2 := t2 ]} in
  fst (getItemFromCache ld2 key []) !! l2 = Some t2 /\
  (l1 <> l2 -> fst (getItemFromCache ld2 key []) !! l1 = Some t1) /\
  (forall l, l <> l1 -> l <> l2 ->
     fst (getItemFromCache ld2 key []) !! l = fst (getItemFromCache ld key []) !! l) /\
  (forall locales l, locales <> [] ->
     fst (getItemFromCache ld2 key locales) !! l =
     if decide (l ∈ locales) then fst (getItemFromCache ld2 key []) !! l else None) /\
  fst (getItemFromCache ld2 key [])
  = default ∅ (assoc_str (lru_items (ld_cache ld2)) key).
Proof.
  intros ld2. unfold ld2. rewrite !get_after_set. split_and!.
  - apply lookup_union_Some_l. apply lookup_singleton_eq.
  - intros Hne. rewrite lookup_union_r by (by apply lookup_singleton_ne).
    apply lookup_union_Some_l. apply lookup_singleton_eq.
  - intros l H1 H2.
    rewrite lookup_union_r by (by apply lookup_singleton_ne).
    by rewrite lookup_union_r by (by apply lookup_singleton_ne).
  - intros locales l Hne. rewrite getItemFromCache_pick by done.
    rewrite !get_after_set. apply pick_lookup.
  - rewrite <- !get_after_set. apply getItemFromCache_all.
Qed.

Lemma cache_set_merges_witness :
  fst (getItemFromCache
         (setItemToCache (setItemToCache Ref.loader "lru" {[ "en" := "Howdy" ]})
            "lru" {[ "fr" := "Hey" ]}) "lru" []) !! "en" = Some "Howdy".
Proof.
  apply (cache_set_merges Ref.loader "lru" "en" "Howdy" "fr" "Hey").
  intros Heq. discriminate Heq.
Defined.

(** *** Remote failures *)

Lemma loadFromCache_loop_logger locales keys translations unknown ld :
  ld_logger (snd (loadFromCache_loop locales keys translations unknown ld))
  = ld_logger ld.
Proof.
  revert translations unknown ld.
  induction keys as [|key r IH]; intros translations unknown ld; [done|].
  simpl. destruct (getItemFromCache ld key locales) as [tr ld1] eqn:Hg.
  assert (ld_logger ld1 = ld_logger ld) as Hl.
  { unfold getItemFromCache in Hg.
    destruct (lru_get (ld_cache ld) key). by injection Hg as _ <-. }
  case_bool_decide; by rewrite IH.
Qed.

(** C7, as stated, fails: without remote store [load] returns the empty
    mapping and logs nothing, though the cache holds a template for the
    key asked for. *)
Lemma load_offline_ignores_cache :
  let '(translations, _, w') :=
    load (Ref.world []) offline_loader Ref.engine ["howdy"] in
  translations = ∅ /\
  w_log w' = [] /\
  fst (fst (loadFromCache (Ref.world []) offline_loader Ref.engine ["howdy"]))
    !! "en" ≫= (fun m => m !! "howdy") = Some "Howdy".
Proof. vm_compute. split_and!; reflexivity. Qed.

(** C7 (amended): [load] always returns a mapping.  Without remote store
    it returns the empty mapping, without reading the cache and without
    logging.  When the batch fails, it logs a warning on the logger of
    the loader and returns what [loadFromCache] assembled for the keys. *)
Theorem load_survives_remote_failure w ld engine keys :
  (ld_redis ld = None -> load w ld engine keys = (∅, ld, w)) /\
  (forall error translations unknown ld1,
      ld_redis ld = Some (Failing error) ->
      loadFromCache w ld engine keys = (translations, unknown, ld1) ->
      unknown <> [] ->
      load w ld engine keys
      = (translations, ld1, add_log w (LogWarn (ld_logger ld) error))).
Proof.
  split.
  - intros Hr. unfold load. by rewrite Hr.
  - intros error translations unknown ld1 Hr Hc Hne.
    unfold load. rewrite Hr, Hc.
    destruct unknown as [|k u]; [done|]. simpl.
    do 3 f_equal.
    change ld1 with (snd (translations, k :: u, ld1)). rewrite <- Hc.
    apply loadFromCache_loop_logger.
Qed.

Lemma load_survives_remote_failure_witness :
  load (Ref.world []) failing_loader Ref.engine ["howdy"; "hello-john"]
  = ({[ "en" := {[ "howdy" := "Howdy" ]} ]},
     failing_loader,
     add_log (Ref.world []) (LogWarn 7 "ECONNREFUSED")).
Proof.
  apply (proj2 (load_survives_remote_failure (Ref.world []) failing_loader
                  Ref.engine ["howdy"; "hello-john"])
           "ECONNREFUSED" _ ["hello-john"]).
  - reflexivity.
  - vm_compute. reflexivity.
  - discriminate.
Defined.

(** ** The engine: missing keys and fallbacks *)

Lemma bind_count_catalog w placeholders quantity phs w1 :
  bind_count w placeholders quantity = Some (phs, w1) ->
  w_catalog w1 = w_catalog w /\ w_instances w1 = w_instances w /\
  w_configs w1 = w_configs w /\ w_log w1 = w_log w.
Proof.
  unfold bind_count.
  destruct quantity, placeholders; intros [= <- <-]; done.
Qed.




(** A fallback that is the key of a template is answered by that
    template. *)
Example fallback_that_is_a_key :
  fst (translateGenerator Ref.host Ref.engine (VRef 0)
         (Ref.world [OPlain [("key", VStr "nope"); ("fallback", VStr "howdy")]]))
  = Some (VStr "Howdy").
Proof. vm_compute. reflexivity. Qed.

(** The text of a key before a [:] is a namespace to i18next: a key
    without template does not come back verbatim. *)
Example namespace_is_dropped :
  fst (translateGenerator Ref.host Ref.engine (VRef 0)
         (Ref.world [OPlain [("key", VStr "foo:bar")]]))
  = Some (VStr "bar").
Proof. vm_compute. reflexivity. Qed.

(** The placeholders are the options of i18next: a placeholder named
    [defaultValue] is returned in place of the key. *)
Example placeholders_are_options :
  fst (translateGenerator Ref.host Ref.engine (VRef 0)
         (Ref.world [OPlain [("key", VStr "nope"); ("placeholders", VRef 1)];
                     OPlain [("defaultValue", VStr "Hello")]]))
  = Some (VStr "Hello").
Proof. vm_compute. reflexivity. Qed.

(** ** The engine: formatter failures *)





























Lemma run_nodes_length H engine trs w : length (run_nodes H engine trs w) = length trs.
Proof. revert w. induction trs as [|tr r IH]; intros w; simpl; [done|by rewrite IH]. Qed.






(** An array with the failing node of the test suite and a node that
    translates: the second is translated all the same. *)
Example failure_does_not_stop_the_rest :
  fst <$> Ref.run 5
    (currency_heap ++ [OPlain [("@translate", VRef 5)];
                       OPlain [("key", VStr "howdy")];
                       OArray [VRef 0; VRef 4]]) (VRef 6)
  = Some (TArr [TLeaf (VRef 1); TLeaf (VStr "Howdy")]).
Proof. vm_compute. reflexivity. Qed.

(** [Object.assign] in [loadFromCache] is shallow: of two keys found in
    the cache under the same locale, the mapping keeps the second. *)
Example loadFromCache_keeps_last_hit :
  let ld := {| ld_redis := None;
               ld_cache := {| lru_max := 500;
                              lru_items := [("a", {[ "en" := "A" ]});
                                            ("b", {[ "en" := "B" ]})] |};
               ld_logger := 0 |} in
  let translations := fst (fst (loadFromCache (Ref.world []) ld Ref.engine ["a"; "b"])) in
  translations !! "en" ≫= (fun m => m !! "a") = None /\
  translations !! "en" ≫= (fun m => m !! "b") = Some "B".
Proof. vm_compute. split; reflexivity. Qed.

(** * More properties *)

(** ** The keys the walker collects *)

Lemma concat_map_concat {A B} (f : A -> list B) (ls : list (list A)) :
  concat (map f (concat ls)) = concat (map (fun l => concat (map f l)) ls).
Proof.
  induction ls as [|l r IH]; [done|].
  simpl. by rewrite map_app, concat_app, IH.
Qed.

Lemma walk_each_keys walk vs ts ks (F : tree -> list string) :
  (forall v t k, walk v = Some (t, k) -> k = F t) ->
  walk_each walk vs = Some (ts, ks) ->
  ks = concat (map F ts).
Proof.
  intros Hw. revert ts ks. induction vs as [|v r IH]; intros ts ks; simpl.
  - by intros [= <- <-].
  - destruct (walk v) as [[t k1]|] eqn:Hv; [|done].
    destruct (walk_each walk r) as [[ts' k2]|] eqn:Hr; [|done].
    intros [= <- <-]. simpl. by rewrite (Hw _ _ _ Hv), (IH _ _ eq_refl).
Qed.

Lemma pendings_zip (ks : list string) ts :
  length ts = length ks ->
  concat (map (fun kx : string * tree => pendings (snd kx)) (zip ks ts))
  = concat (map pendings ts).
Proof.
  intros Hlen. f_equal.
  rewrite <- (snd_zip ks ts) at 2 by lia. by rewrite map_map.
Qed.

Lemma node_key h v :
  _validateNode h v = true -> exists s, key_of h (translate_of h v) = [s].
Proof.
  intros Hv. apply validateNode_shape in Hv
    as (ps & tps & Hown & _ & Htps & (s & Hk) & _).
  exists s. unfold translate_of, key_of. by rewrite Hown, Htps, Hk.
Qed.

Lemma walk_keys_eq fuel h v sk ks :
  _walk fuel h v = Some (sk, ks) ->
  ks = concat (map (key_of h) (pendings sk)).
Proof.
  revert v sk ks. induction fuel as [|fuel IH]; intros v sk ks; [done|].
  simpl. destruct (_validateNode h v) eqn:Hval.
  { intros [= <- <-]. simpl. by rewrite app_nil_r. }
  destruct v as [| | | | |l]; try (by intros [= <- <-]).
  destruct (h !! l) as [[ps|es|ps [json|]|m ps]|] eqn:Hl;
    try (by intros [= <- <-]).
  - destruct (walk_each (_walk fuel h) (map snd ps)) as [[ts ks']|] eqn:Hw; [|done].
    intros [= <- <-]. simpl.
    assert (length ts = length (map fst ps)) as Hlen.
    { apply walk_each_Forall2 in Hw. apply Forall2_length in Hw.
      rewrite !length_map in *. done. }
    rewrite (pendings_zip _ _ Hlen), concat_map_concat, map_map.
    eapply (walk_each_keys _ _ _ _
              (fun t => concat (map (key_of h) (pendings t)))); [|done]. apply IH.
  - destruct (walk_each (_walk fuel h) es) as [[ts ks']|] eqn:Hw; [|done].
    intros [= <- <-]. simpl. rewrite concat_map_concat, map_map.
    eapply (walk_each_keys _ _ _ _
              (fun t => concat (map (key_of h) (pendings t)))); [|done]. apply IH.
  - apply IH.
Qed.

Lemma walk_each_Forall_pendings walk vs ts ks (P : val -> Prop) :
  (forall v t k, walk v = Some (t, k) -> Forall P (pendings t)) ->
  walk_each walk vs = Some (ts, ks) ->
  Forall P (concat (map pendings ts)).
Proof.
  intros Hw. revert ts ks. induction vs as [|v r IH]; intros ts ks; simpl.
  - intros [= <- <-]. constructor.
  - destruct (walk v) as [[t k1]|] eqn:Hv; [|done].
    destruct (walk_each walk r) as [[ts' k2]|] eqn:Hr; [|done].
    intros [= <- <-]. simpl. apply Forall_app. split; [by eapply Hw|by eapply IH].
Qed.

Lemma walk_pendings_keyed fuel h v sk ks :
  _walk fuel h v = Some (sk, ks) ->
  Forall (fun tr => exists s, key_of h tr = [s]) (pendings sk).
Proof.
  revert v sk ks. induction fuel as [|fuel IH]; intros v sk ks; [done|].
  simpl. destruct (_validateNode h v) eqn:Hval.
  { intros [= <- <-]. simpl. constructor; [by apply node_key|constructor]. }
  destruct v as [| | | | |l]; try (intros [= <- <-]; constructor).
  destruct (h !! l) as [[ps|es|ps [json|]|m ps]|] eqn:Hl;
    try (intros [= <- <-]; constructor).
  - destruct (walk_each (_walk fuel h) (map snd ps)) as [[ts ks']|] eqn:Hw; [|done].
    intros [= <- <-]. simpl.
    assert (length ts = length (map fst ps)) as Hlen.
    { apply walk_each_Forall2 in Hw. apply Forall2_length in Hw.
      rewrite !length_map in *. done. }
    rewrite (pendings_zip _ _ Hlen).
    eapply walk_each_Forall_pendings; [|done]. apply IH.
  - destruct (walk_each (_walk fuel h) es) as [[ts ks']|] eqn:Hw; [|done].
    intros [= <- <-]. simpl. eapply walk_each_Forall_pendings; [|done]. apply IH.
  - apply IH.
Qed.

(** X1: the keys [_walk] hands to the loader are the keys of the nodes
    it left pending, one for each node, in the order of the walk. *)
Theorem walk_collects_node_keys fuel h v sk ks :
  _walk fuel h v = Some (sk, ks) ->
  ks = concat (map (key_of h) (pendings sk)) /\
  length ks = length (pendings sk).
Proof.
  intros Hw. pose proof (walk_keys_eq _ _ _ _ _ Hw) as Heq.
  pose proof (walk_pendings_keyed _ _ _ _ _ Hw) as Hk.
  split; [done|]. rewrite Heq. clear Heq Hw.
  induction Hk as [|tr l [s Hs] _ IH]; [done|].
  simpl. rewrite Hs. simpl. by rewrite IH.
Qed.

Lemma walk_collects_node_keys_witness :
  ["howdy"; "hello-john"]
  = concat (map (key_of two_nodes_heap) (pendings (TArr [TPending (VRef 2); TPending (VRef 4)])))
  /\ length ["howdy"; "hello-john"]
     = length (pendings (TArr [TPending (VRef 2); TPending (VRef 4)])).
Proof.
  apply (walk_collects_node_keys 5 two_nodes_heap (VRef 0)).
  vm_compute. reflexivity.
Defined.

(** ** [buildTranslationObject] *)

Lemma translate_props_key h key placeholders fallback quantity :
  get_prop (_translate_props h key placeholders fallback quantity) "key" = key.
Proof.
  unfold _translate_props.
  destruct (plain_and_not_empty h placeholders), (is_undef fallback),
    (is_undef quantity); reflexivity.
Qed.

Lemma translate_props_placeholders h key placeholders fallback quantity :
  has_prop (_translate_props h key placeholders fallback quantity) "placeholders"
  = plain_and_not_empty h placeholders /\
  get_prop (_translate_props h key placeholders fallback quantity) "placeholders"
  = if plain_and_not_empty h placeholders then placeholders else VUndef.
Proof.
  unfold _translate_props.
  destruct (plain_and_not_empty h placeholders), (is_undef fallback),
    (is_undef quantity); split; reflexivity.
Qed.

Lemma translate_props_fallback h key placeholders fallback quantity :
  has_prop (_translate_props h key placeholders fallback quantity) "fallback"
  = negb (is_undef fallback) /\
  get_prop (_translate_props h key placeholders fallback quantity) "fallback"
  = fallback.
Proof.
  unfold _translate_props.
  destruct (plain_and_not_empty h placeholders), (is_undef fallback) eqn:Hf,
    (is_undef quantity); split; try reflexivity; by destruct fallback.
Qed.

Lemma translate_props_quantity h key placeholders fallback quantity :
  has_prop (_translate_props h key placeholders fallback quantity) "quantity"
  = negb (is_undef quantity) /\
  get_prop (_translate_props h key placeholders fallback quantity) "quantity"
  = quantity.
Proof.
  unfold _translate_props.
  destruct (plain_and_not_empty h placeholders), (is_undef fallback),
    (is_undef quantity) eqn:Hq; split; try reflexivity; by destruct quantity.
Qed.

Lemma buildTranslationObject_unfold h key placeholders options opts :
  build_options h options = Ok opts ->
  buildTranslationObject h key placeholders options
  = Ok (VRef (S (length h)),
        h ++ [OPlain (_translate_props h key placeholders
                        (get_prop opts "fallback") (get_prop opts "quantity"));
              OPlain [(TRANSLATE_SYMBOL, VRef (length h))]]).
Proof.
  intros Ho. unfold buildTranslationObject, alloc. rewrite Ho.
  rewrite length_app. simpl. rewrite Nat.add_1_r.
  by rewrite <- app_assoc.
Qed.

Lemma lookup_built_inner (h : heap) a b : (h ++ [a; b]) !! length h = Some a.
Proof. rewrite lookup_app_r by done. by rewrite Nat.sub_diag. Qed.

Lemma lookup_built_outer (h : heap) a b : (h ++ [a; b]) !! S (length h) = Some b.
Proof.
  rewrite lookup_app_r by lia.
  replace (S (length h) - length h) with 1 by lia. done.
Qed.

Lemma plain_and_not_empty_own h placeholders (ext : heap) :
  plain_and_not_empty h placeholders = true ->
  is_Some (own_props (h ++ ext) placeholders).
Proof.
  unfold plain_and_not_empty, own_props.
  destruct placeholders as [| | | | |l]; try done.
  destruct (h !! l) as [[[|p ps]|es|ps j|m ps]|] eqn:Hl; try done.
  intros _. rewrite (lookup_app_l_Some _ _ _ _ Hl). eauto.
Qed.

Lemma built_node_valid_iff h key placeholders options opts node h' :
  build_options h options = Ok opts ->
  buildTranslationObject h key placeholders options = Ok (node, h') ->
  (_validateNode h' node = true <->
   is_string key /\
   undefined_or_string (get_prop opts "fallback") /\
   undefined_or_number (get_prop opts "quantity")).
Proof.
  intros Ho Hb. rewrite (buildTranslationObject_unfold _ _ _ _ _ Ho) in Hb.
  injection Hb as <- <-.
  set (tps := _translate_props h key placeholders
                (get_prop opts "fallback") (get_prop opts "quantity")).
  rewrite validateNode_shape. unfold node_shape, own_props.
  rewrite lookup_built_outer.
  destruct (translate_props_placeholders h key placeholders
              (get_prop opts "fallback") (get_prop opts "quantity")) as [Hph Hpg].
  destruct (translate_props_fallback h key placeholders
              (get_prop opts "fallback") (get_prop opts "quantity")) as [Hfh Hfg].
  destruct (translate_props_quantity h key placeholders
              (get_prop opts "fallback") (get_prop opts "quantity")) as [Hqh Hqg].
  pose proof (translate_props_key h key placeholders
              (get_prop opts "fallback") (get_prop opts "quantity")) as Hk.
  fold tps in Hph, Hpg, Hfh, Hfg, Hqh, Hqg, Hk.
  split.
  - intros (ps & tps' & [= <-] & _ & Htps & (s & Hs) & Hq & _ & Hf).
    simpl in Htps. rewrite lookup_built_inner in Htps. injection Htps as <-.
    rewrite Hk in Hs. rewrite Hqh, Hqg in Hq. rewrite Hfh, Hfg in Hf.
    split_and!.
    + by exists s.
    + destruct (get_prop opts "fallback"); try (by left); right; by apply Hf.
    + destruct (get_prop opts "quantity"); try (by left); right; by apply Hq.
  - intros ((s & ->) & Hf & Hq).
    exists [(TRANSLATE_SYMBOL, VRef (length h))], tps. split_and!.
    + done.
    + intros kx Hin. apply list_elem_of_singleton in Hin. by subst kx.
    + simpl. by rewrite lookup_built_inner.
    + exists s. exact Hk.
    + rewrite Hqh, Hqg. intros Hh.
      destruct Hq as [Hq|Hq]; [by rewrite Hq in Hh|done].
    + rewrite Hph, Hpg. intros Hp. rewrite Hp.
      exact (plain_and_not_empty_own h placeholders _ Hp).
    + rewrite Hfh, Hfg. intros Hh.
      destruct Hf as [Hf|Hf]; [by rewrite Hf in Hh|done].
Qed.

(** X2: the node [buildTranslationObject] returns is accepted by the
    validator exactly when the key is a string, the fallback is
    [undefined] or a string and the quantity is [undefined] or a number;
    the placeholders never stand in the way, since only a plain object
    that is not empty is attached. *)
Theorem built_node_valid h key placeholders options opts node h' :
  build_options h options = Ok opts ->
  buildTranslationObject h key placeholders options = Ok (node, h') ->
  (_validateNode h' node = true <->
   is_string key /\
   undefined_or_string (get_prop opts "fallback") /\
   undefined_or_number (get_prop opts "quantity")).
Proof. exact (built_node_valid_iff h key placeholders options opts node h'). Qed.

Lemma built_node_valid_witness :
  _validateNode
    (builder_heap ++
       [OPlain [("key", VStr "goodbye-john"); ("placeholders", VRef 0);
                ("fallback", VStr "Good bye {{john}}")];
        OPlain [("@translate", VRef 2)]])
    (VRef 3) = true.
Proof.
  apply (built_node_valid builder_heap (VStr "goodbye-john") (VRef 0) (VRef 1)
           [("fallback", VStr "Good bye {{john}}")]).
  - reflexivity.
  - reflexivity.
  - split_and!; [by eexists|right; by eexists|by left].
Defined.

(** X3: walking a node [buildTranslationObject] built from a string key,
    an absent or string fallback and an absent or numeric quantity leaves
    one pending node, the [@translate] object it created, and collects
    its key; the placeholders are not walked. *)
Theorem built_node_walk h key placeholders options opts node h' s fuel :
  build_options h options = Ok opts ->
  buildTranslationObject h key placeholders options = Ok (node, h') ->
  key = VStr s ->
  undefined_or_string (get_prop opts "fallback") ->
  undefined_or_number (get_prop opts "quantity") ->
  _walk (S fuel) h' node = Some (TPending (VRef (length h)), [s]).
Proof.
  intros Ho Hb -> Hf Hq.
  assert (_validateNode h' node = true) as Hv.
  { apply (built_node_valid_iff _ _ _ _ _ _ _ Ho Hb). split_and!; [by eexists|done|done]. }
  simpl. rewrite Hv.
  rewrite (buildTranslationObject_unfold _ _ _ _ _ Ho) in Hb.
  injection Hb as <- <-.
  unfold translate_of, key_of, own_props.
  rewrite lookup_built_outer. simpl. rewrite lookup_built_inner.
  by rewrite translate_props_key.
Qed.

Lemma built_node_walk_witness :
  _walk 1
    (builder_heap ++
       [OPlain [("key", VStr "goodbye-john"); ("placeholders", VRef 0);
                ("fallback", VStr "Good bye {{john}}")];
        OPlain [("@translate", VRef 2)]])
    (VRef 3)
  = Some (TPending (VRef 2), ["goodbye-john"]).
Proof.
  apply (built_node_walk builder_heap (VStr "goodbye-john") (VRef 0) (VRef 1)
           [("fallback", VStr "Good bye {{john}}")]).
  - reflexivity.
  - reflexivity.
  - reflexivity.
  - right. by eexists.
  - by left.
Defined.

Lemma catch_error_lookup w self l msg p :
  p < length (w_heap w) -> p <> l ->
  w_heap (catch_error w self (VRef l) msg) !! p = w_heap w !! p.
Proof.
  intros Hlt Hne. unfold catch_error, alloc. simpl. unfold heap_set.
  destruct ((w_heap w ++ [OError msg []]) !! l) as [o|].
  - rewrite list_lookup_insert_ne by done. by rewrite lookup_app_l.
  - by rewrite lookup_app_l.
Qed.

(** X4: [buildTranslationObject] keeps the placeholders it is given by
    reference, so when the node is built with a numeric quantity from a
    plain object that is not empty, resolving it writes [count] into
    that object of the caller, whether the interpolation succeeds or
    throws. *)
Theorem built_node_counts_into_placeholders H self w key p ps0 options opts q node h' :
  w_heap w !! p = Some (OPlain ps0) ->
  ps0 <> [] ->
  build_options (w_heap w) options = Ok opts ->
  get_prop opts "quantity" = VNum q ->
  buildTranslationObject (w_heap w) key (VRef p) options = Ok (node, h') ->
  w_heap (snd (translateGenerator H self (translate_of h' node) (with_heap w h'))) !! p
  = Some (OPlain (set_prop ps0 "count" (VNum q))).
Proof.
  intros Hp Hne Ho Hq Hb.
  rewrite (buildTranslationObject_unfold _ _ _ _ _ Ho) in Hb.
  injection Hb as <- <-.
  pose proof (lookup_lt_Some _ _ _ Hp) as Hlt.
  set (tps := _translate_props (w_heap w) key (VRef p)
                (get_prop opts "fallback") (get_prop opts "quantity")).
  set (h' := w_heap w ++ [OPlain tps; OPlain [(TRANSLATE_SYMBOL, VRef (length (w_heap w)))]]).
  assert (translate_of h' (VRef (S (length (w_heap w)))) = VRef (length (w_heap w)))
    as ->.
  { unfold translate_of, own_props, h'. by rewrite lookup_built_outer. }
  assert (plain_and_not_empty (w_heap w) (VRef p) = true) as Hpne.
  { unfold plain_and_not_empty. rewrite Hp. by destruct ps0. }
  destruct (translate_props_placeholders (w_heap w) key (VRef p)
              (get_prop opts "fallback") (get_prop opts "quantity")) as [_ Hpg].
  destruct (translate_props_quantity (w_heap w) key (VRef p)
              (get_prop opts "fallback") (get_prop opts "quantity")) as [_ Hqg].
  fold tps in Hpg, Hqg. rewrite Hpne in Hpg. rewrite Hq in Hqg.
  assert (h' !! p = Some (OPlain ps0)) as Hp'.
  { unfold h'. by rewrite lookup_app_l. }
  assert (length h' = S (S (length (w_heap w)))) as Hlen.
  { unfold h'. rewrite length_app. simpl. lia. }
  unfold translateGenerator.
  assert (destructure (w_heap (with_heap w h')) (VRef (length (w_heap w))) = Ok tps)
    as ->.
  { unfold destructure, own_props. simpl. unfold h'. by rewrite lookup_built_inner. }
  rewrite Hpg, Hqg. unfold bind_count. simpl w_heap.
  set (h1 := heap_set h' p "count" (VNum q)).
  assert (h1 !! p = Some (OPlain (set_prop ps0 "count" (VNum q)))) as Hp1.
  { unfold h1, heap_set. rewrite Hp'. simpl.
    rewrite list_lookup_insert_eq; [done|lia]. }
  assert (length h1 = length h') as Hlen1.
  { unfold h1, heap_set. rewrite Hp'. by rewrite length_insert. }
  destruct (lookup_or_fallback H (with_heap (with_heap w h') h1) self
              (get_prop tps "key") (get_prop tps "fallback") _) as [s|msg].
  - simpl. exact Hp1.
  - simpl snd. rewrite catch_error_lookup; [exact Hp1| simpl; lia | lia].
Qed.

Lemma built_node_counts_into_placeholders_witness :
  w_heap (snd (translateGenerator Ref.host Ref.engine
                 (translate_of
                    (dogs_heap ++
                       [OPlain [("key", VStr "dogs"); ("placeholders", VRef 0);
                                ("quantity", VNum 1)];
                        OPlain [("@translate", VRef 2)]])
                    (VRef 3))
                 (with_heap (Ref.world dogs_heap)
                    (dogs_heap ++
                       [OPlain [("key", VStr "dogs"); ("placeholders", VRef 0);
                                ("quantity", VNum 1)];
                        OPlain [("@translate", VRef 2)]])))) !! 0
  = Some (OPlain (set_prop [("name", VStr "Rantanplan")] "count" (VNum 1))).
Proof.
  apply (built_node_counts_into_placeholders Ref.host Ref.engine
           (Ref.world dogs_heap) (VStr "dogs") 0 [("name", VStr "Rantanplan")]
           (VRef 1) [("quantity", VNum 1)] 1 (VRef 3)).
  - reflexivity.
  - discriminate.
  - reflexivity.
  - reflexivity.
  - reflexivity.
Defined.

(** ** The loader: reading the cache *)

Lemma assoc_lru_remove_ne key items k :
  k <> key -> assoc_str (lru_remove key items) k = assoc_str items k.
Proof.
  intros Hne. unfold lru_remove.
  induction items as [|[k0 v0] r IH]; [done|].
  rewrite filter_cons. cbn [fst].
  destruct (decide (negb (String.eqb k0 key) = true)) as [Hd|Hd]; simpl.
  - destruct (String.eqb k0 k); [done|exact IH].
  - destruct (String.eqb k0 key) eqn:E0; [|done].
    apply String.eqb_eq in E0. subst k0.
    destruct (String.eqb key k) eqn:E1; [|exact IH].
    apply String.eqb_eq in E1. congruence.
Qed.

Lemma lru_get_content c key k :
  assoc_str (lru_items (snd (lru_get c key))) k = assoc_str (lru_items c) k.
Proof.
  unfold lru_get. destruct (assoc_str (lru_items c) key) as [v|] eqn:Ha; [|done].
  simpl. destruct (String.eqb key k) eqn:E.
  - apply String.eqb_eq in E. by subst k.
  - apply assoc_lru_remove_ne. intros ->. by rewrite String.eqb_refl in E.
Qed.

Lemma getItemFromCache_reads ld key locales :
  fst (getItemFromCache ld key locales)
  = match locales with [] => cached ld key | _ => pick (cached ld key) locales end /\
  forall k, cached (snd (getItemFromCache ld key locales)) k = cached ld k.
Proof.
  unfold getItemFromCache, cached.
  pose proof (lru_get_content (ld_cache ld) key) as Hc.
  unfold lru_get in *.
  destruct (assoc_str (lru_items (ld_cache ld)) key) as [v|] eqn:Ha; simpl in *.
  - split; [done|]. intros k. by rewrite Hc.
  - split; done.
Qed.

Lemma getLocales_not_empty w e : getLocales w e <> [].
Proof.
  unfold getLocales. destruct (get_locale w e); try done.
  by destruct (String.eqb s getDefaultLocale).
Qed.

Lemma template_at_hit (hit : gmap string string) key
    (translations : gmap string (gmap string string)) l k :
  template_at (((fun value => {[ key := value ]}) <$> hit) ∪ translations) l k
  = match hit !! l with
    | Some v => if decide (k = key) then Some v else None
    | None => template_at translations l k
    end.
Proof.
  unfold template_at. rewrite lookup_union, lookup_fmap.
  destruct (hit !! l) as [v|] eqn:Hl; simpl.
  - rewrite union_Some_l. simpl.
    destruct (decide (k = key)) as [->|Hne].
    + apply lookup_singleton_eq.
    + by apply lookup_singleton_ne.
  - by rewrite (left_id_L None _).
Qed.

Lemma loadFromCache_loop_reads locales keys translations unknown ld tr' un' ld' :
  locales <> [] ->
  loadFromCache_loop locales keys translations unknown ld = (tr', un', ld') ->
  (forall k, cached ld' k = cached ld k) /\
  un' = unknown ++ filter (fun key => pick (cached ld key) locales = ∅) keys /\
  (forall l k t, template_at tr' l k = Some t ->
     template_at translations l k = Some t \/
     (k ∈ keys /\ l ∈ locales /\ cached ld k !! l = Some t)).
Proof.
  intros Hne. revert translations unknown ld.
  induction keys as [|key r IH]; intros translations unknown ld; simpl.
  - intros [= <- <- <-]. split_and!; [done|by rewrite app_nil_r|eauto].
  - destruct (getItemFromCache_reads ld key locales) as [Hfst Hsame].
    destruct (getItemFromCache ld key locales) as [hit ld1]. simpl in Hfst, Hsame.
    assert (hit = pick (cached ld key) locales) as Hhit by (by destruct locales).
    rewrite filter_cons.
    case_bool_decide as Hempty; intros Hloop;
      destruct (IH _ _ _ Hloop) as (Hc & Hu & Ht).
    + split_and!.
      * intros k. by rewrite Hc, Hsame.
      * rewrite Hu, <- Hhit, decide_True by done.
        rewrite <- app_assoc. simpl. f_equal. f_equal.
        apply list_filter_iff. intros x. by rewrite Hsame.
      * intros l k t Hlk. destruct (Ht _ _ _ Hlk) as [?|(Hin & Hl & Hk)]; [by left|].
        right. split_and!; [by right|done|by rewrite <- Hsame].
    + split_and!.
      * intros k. by rewrite Hc, Hsame.
      * rewrite Hu, <- Hhit, decide_False by done. f_equal.
        apply list_filter_iff. intros x. by rewrite Hsame.
      * intros l k t Hlk. destruct (Ht _ _ _ Hlk) as [Hold|(Hin & Hl & Hk)].
        -- rewrite template_at_hit in Hold.
           destruct (hit !! l) as [v|] eqn:Hv; [|by left].
           destruct (decide (k = key)) as [->|]; [|done].
           injection Hold as <-. right.
           rewrite Hhit, pick_lookup in Hv.
           destruct (decide (l ∈ locales)); [|done].
           split_and!; [by left|done|done].
        -- right. split_and!; [by right|done|by rewrite <- Hsame].
Qed.

Lemma loadFromCache_inv w ld engine keys translations unknown ld1 :
  loadFromCache w ld engine keys = (translations, unknown, ld1) ->
  (forall k, cached ld1 k = cached ld k) /\
  unknown = filter (fun key => pick (cached ld key) (getLocales w engine) = ∅) keys /\
  (forall l k t, template_at translations l k = Some t ->
     k ∈ keys /\ l ∈ getLocales w engine /\ cached ld k !! l = Some t).
Proof.
  intros Hl. unfold loadFromCache in Hl.
  destruct (loadFromCache_loop_reads _ _ _ _ _ _ _ _ (getLocales_not_empty w engine) Hl)
    as (Hc & Hu & Ht).
  split_and!; [done|done|].
  intros l k t Hlk. destruct (Ht _ _ _ Hlk) as [Hold|?]; [|done].
  unfold template_at in Hold. by rewrite lookup_empty in Hold.
Qed.

(** X5: [loadFromCache] only reads: the cache holds afterwards what it
    held; the keys it reports as unknown are, in order, the requested
    keys for which the cache has no template under any locale of the
    engine; and every template it returns is the one the cache holds for
    that key, a requested one, and that locale, one of the engine's. *)
Theorem loadFromCache_reads w ld engine keys translations unknown ld1 :
  loadFromCache w ld engine keys = (translations, unknown, ld1) ->
  (forall k, cached ld1 k = cached ld k) /\
  unknown = filter (fun key => pick (cached ld key) (getLocales w engine) = ∅) keys /\
  (forall l k t, template_at translations l k = Some t ->
     k ∈ keys /\ l ∈ getLocales w engine /\ cached ld k !! l = Some t).
Proof. exact (loadFromCache_inv w ld engine keys translations unknown ld1). Qed.

Lemma loadFromCache_reads_witness :
  ["b"]
  = filter (fun key => pick (cached partial_loader key)
                         (getLocales (Ref.world []) Ref.engine) = ∅) ["a"; "b"].
Proof.
  refine (proj1 (proj2 (loadFromCache_reads (Ref.world []) partial_loader Ref.engine
                          ["a"; "b"] _ ["b"] _ _))).
  vm_compute. reflexivity.
Defined.

(** ** The loader: when the remote store is asked *)

Lemma getItemFromCache_with_redis ld key locales r :
  getItemFromCache (with_redis ld r) key locales
  = (fst (getItemFromCache ld key locales),
     with_redis (snd (getItemFromCache ld key locales)) r).
Proof.
  unfold getItemFromCache. simpl.
  by destruct (lru_get (ld_cache ld) key).
Qed.

Lemma loadFromCache_loop_with_redis locales keys translations unknown ld r :
  loadFromCache_loop locales keys translations unknown (with_redis ld r)
  = let '(tr, un, ld') := loadFromCache_loop locales keys translations unknown ld in
    (tr, un, with_redis ld' r).
Proof.
  revert translations unknown ld.
  induction keys as [|key rest IH]; intros translations unknown ld; simpl.
  - done.
  - rewrite getItemFromCache_with_redis.
    destruct (getItemFromCache ld key locales) as [hit ld1]. simpl.
    case_bool_decide; apply IH.
Qed.

Lemma add_all_log w translations : w_log (add_all w translations) = w_log w.
Proof.
  unfold add_all.
  apply (map_fold_weak_ind (fun (b : World) _ => w_log b = w_log w)); done.
Qed.

Lemma load_cached_inv w ld engine keys translations ld1 r :
  loadFromCache w ld engine keys = (translations, [], ld1) ->
  load w (with_redis ld (Some r)) engine keys
  = (translations, with_redis ld1 (Some r), add_all w translations) /\
  w_log (add_all w translations) = w_log w.
Proof.
  intros Hc. split; [|apply add_all_log].
  unfold load, loadFromCache in *. simpl ld_redis.
  rewrite loadFromCache_loop_with_redis, Hc. reflexivity.
Qed.

(** X6: when the cache has a template for every requested key, [load]
    does not ask the remote store: whatever state the store is in, even
    unreachable, it returns what [loadFromCache] assembled, hands it to
    the engine, and logs nothing. *)
Theorem load_all_cached w ld engine keys translations ld1 r :
  loadFromCache w ld engine keys = (translations, [], ld1) ->
  load w (with_redis ld (Some r)) engine keys
  = (translations, with_redis ld1 (Some r), add_all w translations) /\
  w_log (add_all w translations) = w_log w.
Proof. exact (load_cached_inv w ld engine keys translations ld1 r). Qed.

Lemma load_all_cached_witness :
  load (Ref.world []) warm_loader Ref.engine ["howdy"; "hello-john"]
  = (fst (fst (loadFromCache (Ref.world []) warm_loader Ref.engine
                 ["howdy"; "hello-john"])),
     with_redis (snd (loadFromCache (Ref.world []) warm_loader Ref.engine
                        ["howdy"; "hello-john"]))
       (Some (Failing "ECONNREFUSED")),
     add_all (Ref.world [])
       (fst (fst (loadFromCache (Ref.world []) warm_loader Ref.engine
                    ["howdy"; "hello-john"])))) /\
  w_log (add_all (Ref.world [])
           (fst (fst (loadFromCache (Ref.world []) warm_loader Ref.engine
                        ["howdy"; "hello-john"])))) = [].
Proof.
  apply (load_all_cached (Ref.world []) warm_loader Ref.engine
           ["howdy"; "hello-john"] _ _ (Failing "ECONNREFUSED")).
  vm_compute. reflexivity.
Defined.

(** ** The loader: what a batch brings back *)

Lemma template_at_set_path translations l0 k0 t0 l k :
  template_at (set_path translations l0 k0 t0) l k
  = if decide (l = l0 /\ k = k0) then Some t0 else template_at translations l k.
Proof.
  unfold template_at, set_path.
  destruct (decide (l = l0)) as [->|Hl].
  - rewrite lookup_insert_eq. simpl.
    destruct (decide (k = k0)) as [->|Hk].
    + rewrite lookup_insert_eq. by rewrite decide_True.
    + rewrite lookup_insert_ne by done. rewrite decide_False by tauto.
      by destruct (translations !! l0).
  - rewrite lookup_insert_ne by done. by rewrite decide_False by tauto.
Qed.

Lemma reformat_row_aligned (g : string -> option string) row key ls :
  forall j acc,
    (forall i l, ls !! i = Some l -> row !! (j + i) = Some (g l)) ->
    forall l k,
      template_at (fst (reformat_row row key j ls acc)) l k
      = from_option Some (template_at (fst acc) l k)
          (if decide (k = key /\ l ∈ ls) then taken (g l) else None).
Proof.
  induction ls as [|locale r IH]; intros j acc Hrow l k.
  - simpl. rewrite decide_False; [done|]. intros [_ Hin]. by apply not_elem_of_nil in Hin.
  - simpl. rewrite IH.
    2:{ intros i l' Hi. replace (S j + i) with (j + S i) by lia. by apply Hrow. }
    assert (row !! j = Some (g locale)) as Hj.
    { replace j with (j + 0) by lia. by apply Hrow. }
    rewrite Hj.
    assert (forall a b, template_at
              (fst (match g locale with
                    | Some template =>
                        if String.eqb template "" then acc
                        else (set_path (fst acc) locale key template,
                              setItemToCache (snd acc) key {[ locale := template ]})
                    | None => acc
                    end)) a b
            = if decide (a = locale /\ b = key)
              then from_option Some (template_at (fst acc) a b) (taken (g locale))
              else template_at (fst acc) a b) as Hacc.
    { intros a b. unfold taken. destruct (g locale) as [t|]; simpl.
      - destruct (String.eqb t ""); simpl.
        + by destruct (decide _).
        + rewrite template_at_set_path. by destruct (decide _).
      - by destruct (decide _). }
    rewrite Hacc. clear Hacc.
    destruct (decide (k = key /\ l ∈ r)) as [[Hk Hin]|Hnr];
      destruct (decide (l = locale /\ k = key)) as [[Hl Hk']|Hne];
      destruct (decide (k = key /\ l ∈ locale :: r)) as [[Hk'' Hin']|Hn];
      subst; simpl; try done;
      try (by destruct (taken (g locale)));
      try (exfalso; apply Hn; split; [done|apply elem_of_cons; tauto]).
    exfalso. apply elem_of_cons in Hin' as [->|Hin']; tauto.
Qed.

Lemma reformat_aligned db locales keys :
  forall pre acc l k,
    template_at
      (fst (reformat (map (hmget_row db locales) (pre ++ keys)) (length pre)
              keys locales acc)) l k
    = from_option Some (template_at (fst acc) l k)
        (if decide (k ∈ keys /\ l ∈ locales)
         then taken (db !! k ≫= fun m => m !! l) else None).
Proof.
  induction keys as [|key r IH]; intros pre acc l k.
  - cbn [reformat].
    destruct (decide (k ∈ [] /\ l ∈ locales)) as [[Hin _]|]; [|done].
    by apply not_elem_of_nil in Hin.
  - cbn [reformat].
    replace (pre ++ key :: r) with ((pre ++ [key]) ++ r) by (by rewrite <- app_assoc).
    replace (S (length pre)) with (length (pre ++ [key]))
      by (rewrite length_app; simpl; lia).
    assert (map (hmget_row db locales) ((pre ++ [key]) ++ r) !! length pre
            = Some (hmget_row db locales key)) as Hrow.
    { rewrite list_lookup_fmap, <- app_assoc. simpl.
      rewrite lookup_app_r by done. by rewrite Nat.sub_diag. }
    rewrite Hrow. simpl. rewrite IH.
    rewrite (reformat_row_aligned (fun f => db !! key ≫= fun m => m !! f)).
    2:{ intros i f Hi. simpl. unfold hmget_row. by rewrite list_lookup_fmap, Hi. }
    destruct (decide (k ∈ r /\ l ∈ locales)) as [[Hin Hl]|Hnr];
      destruct (decide (k = key /\ l ∈ locales)) as [[Hk Hl']|Hne];
      destruct (decide (k ∈ key :: r /\ l ∈ locales)) as [[Hin' Hl'']|Hn];
      subst; simpl; try done;
      try (by destruct (taken _));
      try (exfalso; apply Hn; split; [apply elem_of_cons; tauto|done]).
    exfalso. apply elem_of_cons in Hin' as [->|Hin']; tauto.
Qed.

Lemma filter_all {A} (P : A -> Prop) `{!forall x, Decision (P x)} (l : list A) :
  (forall x, x ∈ l -> P x) -> filter P l = l.
Proof.
  induction l as [|x r IH]; intros Hall; [done|].
  rewrite filter_cons, decide_True by (apply Hall; by left).
  f_equal. apply IH. intros y Hy. apply Hall. by right.
Qed.

(** X7: when the cache has nothing for the requested keys, the remote
    store answers, and the requested keys and the locales of the engine
    are one step of a path each (no [.], [[] or []], so that [_.set]
    writes [translations[locale][key]]), [load] returns, under each
    locale of the engine and each requested key, the template the store
    holds for them when it is not empty, and nothing else. *)
Theorem load_fetches_what_the_store_holds w ld engine keys db :
  ld_redis ld = Some (Connected db) ->
  (forall key, key ∈ keys -> pick (cached ld key) (getLocales w engine) = ∅) ->
  forallb one_step (keys ++ getLocales w engine) = true ->
  forall l k,
    template_at (fst (fst (load w ld engine keys))) l k
    = if decide (k ∈ keys /\ l ∈ getLocales w engine)
      then taken (db !! k ≫= fun m => m !! l) else None.
Proof.
  intros Hr Hcold _ l k. unfold load. rewrite Hr.
  destruct (loadFromCache w ld engine keys) as [[tr unknown] ld1] eqn:Hc.
  destruct (loadFromCache_inv _ _ _ _ _ _ _ Hc) as (_ & Hu & Ht).
  rewrite (filter_all _ _ Hcold) in Hu. subst unknown.
  assert (template_at tr l k = None) as Hnone.
  { destruct (template_at tr l k) as [t|] eqn:Hlk; [|done].
    destruct (Ht _ _ _ Hlk) as (Hin & Hl & Hk).
    pose proof (pick_lookup (cached ld k) (getLocales w engine) l) as Hp.
    rewrite (Hcold _ Hin), lookup_empty, decide_True, Hk in Hp by done. done. }
  destruct keys as [|key r].
  - cbn [fst]. rewrite Hnone.
    destruct (decide (k ∈ [] /\ l ∈ getLocales w engine)) as [[Hin _]|]; [|done].
    by apply not_elem_of_nil in Hin.
  - simpl multi_exec. cbv iota beta.
    destruct (reformat _ 0 (key :: r) (getLocales w engine) (tr, ld1))
      as [tr' ld2] eqn:Hre. simpl.
    pose proof (reformat_aligned db (getLocales w engine) (key :: r) [] (tr, ld1) l k)
      as Hal.
    simpl in Hal. unfold hmget_row in Hal. simpl in Hre. rewrite Hre in Hal.
    cbn [fst] in Hal. rewrite Hal, Hnone.
    destruct (decide (k ∈ key :: r /\ l ∈ getLocales w engine)); [|done].
    by destruct (taken _).
Qed.

Lemma load_fetches_what_the_store_holds_witness :
  template_at
    (fst (fst (load (set_locale (Ref.world []) Ref.engine (VStr "fr")) cold_loader
                 Ref.engine ["howdy"; "hello-john"]))) "fr" "howdy"
  = if decide ("howdy" ∈ ["howdy"; "hello-john"] /\
               "fr" ∈ getLocales (set_locale (Ref.world []) Ref.engine (VStr "fr"))
                        Ref.engine)
    then taken (({[ "howdy" := {[ "en" := "Howdy"; "fr" := "Hey" ]};
                    "hello-john" := {[ "en" := "Hello {{john}}" ]} ]}
                  : gmap string (gmap string string)) !! "howdy"
                ≫= fun m => m !! "fr")
    else None.
Proof.
  apply (load_fetches_what_the_store_holds
           (set_locale (Ref.world []) Ref.engine (VStr "fr")) cold_loader Ref.engine
           ["howdy"; "hello-john"]).
  - reflexivity.
  - intros key _. vm_compute. reflexivity.
  - vm_compute. reflexivity.
Defined.

(** ** The loader: what [load] returns and what it changes *)

Lemma reformat_row_sound row key ls :
  forall j acc l k t,
    template_at (fst (reformat_row row key j ls acc)) l k = Some t ->
    template_at (fst acc) l k = Some t \/ (k = key /\ l ∈ ls).
Proof.
  induction ls as [|locale r IH]; intros j acc l k t; simpl; [by left|].
  intros Hlk. apply IH in Hlk as [Hacc|[-> Hin]].
  2:{ right. split; [done|]. apply elem_of_cons. by right. }
  destruct (row !! j) as [[template|]|]; try (by left).
  destruct (String.eqb template ""); [by left|].
  simpl in Hacc. rewrite template_at_set_path in Hacc.
  destruct (decide (l = locale /\ k = key)) as [[-> ->]|]; [|by left].
  right. split; [done|]. apply elem_of_cons. by left.
Qed.

Lemma reformat_sound results keys locales :
  forall i acc l k t,
    template_at (fst (reformat results i keys locales acc)) l k = Some t ->
    template_at (fst acc) l k = Some t \/ (k ∈ keys /\ l ∈ locales).
Proof.
  induction keys as [|key r IH]; intros i acc l k t; simpl; [by left|].
  intros Hlk. apply IH in Hlk as [Hacc|[Hin Hl]].
  2:{ right. split; [|done]. apply elem_of_cons. by right. }
  apply reformat_row_sound in Hacc as [?|[-> Hl]]; [by left|].
  right. split; [|done]. apply elem_of_cons. by left.
Qed.

(** X8: every template [load] returns stands under a locale of the
    engine (the locale of the request or the default one) and under one
    of the keys it was asked for. *)
Theorem load_returns_requested_only w ld engine keys l k t :
  template_at (fst (fst (load w ld engine keys))) l k = Some t ->
  k ∈ keys /\ l ∈ getLocales w engine.
Proof.
  unfold load. destruct (ld_redis ld) as [redis|].
  2:{ simpl. unfold template_at. by rewrite lookup_empty. }
  destruct (loadFromCache w ld engine keys) as [[tr unknown] ld1] eqn:Hc.
  destruct (loadFromCache_inv _ _ _ _ _ _ _ Hc) as (_ & _ & Ht).
  assert (forall u, template_at tr l k = Some u ->
            k ∈ keys /\ l ∈ getLocales w engine) as Hcache.
  { intros u Hu. by destruct (Ht _ _ _ Hu) as (? & ? & _). }
  destruct unknown as [|u0 us]; [apply Hcache|].
  destruct (multi_exec redis (u0 :: us) (getLocales w engine)) as [results|err];
    [|apply Hcache].
  destruct (reformat results 0 keys (getLocales w engine) (tr, ld1))
    as [tr' ld2] eqn:Hre. simpl.
  intros Hlk.
  pose proof (reformat_sound results keys (getLocales w engine) 0 (tr, ld1) l k t)
    as Hs.
  rewrite Hre in Hs. destruct (Hs Hlk) as [Hold|?]; [by eapply Hcache|done].
Qed.

Lemma load_returns_requested_only_witness :
  "howdy" ∈ ["howdy"; "hello-john"] /\
  "fr" ∈ getLocales (set_locale (Ref.world []) Ref.engine (VStr "fr")) Ref.engine.
Proof.
  apply (load_returns_requested_only
           (set_locale (Ref.world []) Ref.engine (VStr "fr")) cold_loader Ref.engine
           ["howdy"; "hello-john"] "fr" "howdy" "Hey").
  vm_compute. reflexivity.
Defined.

Lemma add_all_catalog w (translations : gmap string (gmap string string)) l :
  w_catalog (add_all w translations) !! l
  = match translations !! l with
    | Some m => Some (default ∅ (w_catalog w !! l) ∪ m)
    | None => w_catalog w !! l
    end.
Proof.
  unfold add_all. revert l.
  apply (map_fold_weak_ind
           (fun (b : World) (m : gmap string (gmap string string)) =>
              forall l, w_catalog b !! l
                        = match m !! l with
                          | Some t => Some (default ∅ (w_catalog w !! l) ∪ t)
                          | None => w_catalog w !! l
                          end)).
  - intros l. by rewrite lookup_empty.
  - intros i x m r Hi IH l. unfold addTranslations. simpl.
    destruct (decide (l = i)) as [->|Hne].
    + rewrite !lookup_insert_eq. by rewrite IH, Hi.
    + rewrite !lookup_insert_ne by done. apply IH.
Qed.

Lemma add_all_frame w translations :
  w_heap (add_all w translations) = w_heap w /\
  w_configs (add_all w translations) = w_configs w /\
  w_instances (add_all w translations) = w_instances w.
Proof.
  unfold add_all.
  apply (map_fold_weak_ind
           (fun (b : World) _ =>
              w_heap b = w_heap w /\ w_configs b = w_configs w /\
              w_instances b = w_instances w)); done.
Qed.

Lemma load_world w ld engine keys :
  snd (load w ld engine keys) = add_all w (fst (fst (load w ld engine keys))) \/
  exists error, ld_redis ld = Some (Failing error) /\
    snd (load w ld engine keys) = add_log w (LogWarn (ld_logger ld) error).
Proof.
  unfold load. destruct (ld_redis ld) as [redis|] eqn:Hr.
  2:{ left. simpl. unfold add_all. by rewrite map_fold_empty. }
  pose proof (loadFromCache_loop_logger (getLocales w engine) keys ∅ [] ld) as Hlog.
  unfold loadFromCache.
  destruct (loadFromCache_loop (getLocales w engine) keys ∅ [] ld)
    as [[tr unknown] ld1]. simpl in Hlog.
  destruct unknown as [|u0 us]; [by left|].
  destruct redis as [db|error]; simpl.
  - destruct (reformat _ 0 keys (getLocales w engine) (tr, ld1)) as [tr' ld2].
    by left.
  - right. exists error. by rewrite Hlog.
Qed.

Lemma load_frame_inv w ld engine keys :
  let w' := snd (load w ld engine keys) in
  w_heap w' = w_heap w /\
  w_configs w' = w_configs w /\
  w_instances w' = w_instances w /\
  ((forall error, ld_redis ld <> Some (Failing error)) ->
   w_log w' = w_log w /\
   forall l k t,
     template_at (fst (fst (load w ld engine keys))) l k = Some t ->
     is_Some (template_at (w_catalog w') l k)).
Proof.
  intros w'. unfold w'.
  destruct (load_world w ld engine keys) as [Hw|(error & Hr & Hw)]; rewrite Hw.
  - destruct (add_all_frame w (fst (fst (load w ld engine keys)))) as (? & ? & ?).
    split_and!; try done. intros _. split; [apply add_all_log|].
    intros l k t Hlk. unfold template_at in *.
    rewrite add_all_catalog.
    destruct (fst (fst (load w ld engine keys)) !! l) as [m|]; [|done].
    simpl in *. destruct (default ∅ (w_catalog w !! l) !! k) as [t0|] eqn:Ht0.
    + exists t0. by apply lookup_union_Some_l.
    + exists t. rewrite lookup_union_r by done. done.
  - split_and!; try done. intros Hn. by destruct (Hn error).
Qed.



(** ** Resolution without effect *)

Lemma calm_bind_count w ps :
  ~ writes_count ps ->
  bind_count w (get_prop ps "placeholders") (get_prop ps "quantity")
  = Some (placeholders_of w ps, w).
Proof.
  unfold writes_count, bind_count, placeholders_of. intros Hn.
  destruct (get_prop ps "quantity") as [| | |q| |]; try reflexivity.
  destruct (get_prop ps "placeholders"); try reflexivity;
    exfalso; apply Hn; split; eauto; discriminate.
Qed.

Lemma calm_generator H engine w tr :
  calm H engine w tr ->
  exists s, translateGenerator H engine tr w = (Some s, w).
Proof.
  intros (ps & s & Hown & Hn & Hl). exists s. unfold translateGenerator.
  assert (destructure (w_heap w) tr = Ok ps) as ->.
  { unfold destructure. rewrite Hown. by destruct tr. }
  by rewrite (calm_bind_count _ _ Hn), Hl.
Qed.

Lemma co_each_calm {A B} (f : A -> World -> option B * World)
    (g : A -> list val) (g' : B -> list val) (P : val -> Prop) w (l : list A) :
  Forall (fun x => Forall P (g x) ->
            exists y, f x w = (Some y, w) /\ g' y = []) l ->
  Forall P (concat (map g l)) ->
  exists r, co_each f l w = (Some r, w) /\ concat (map g' r) = [].
Proof.
  induction 1 as [|x l Hx _ IH]; intros Hall; simpl.
  - by exists [].
  - simpl in Hall. apply Forall_app in Hall as [Hgx Hrest].
    destruct (Hx Hgx) as (y & -> & Hy).
    destruct (IH Hrest) as (r & -> & Hr).
    exists (y :: r). simpl. by rewrite Hy, Hr.
Qed.

Lemma co_resolve_calm H engine w sk :
  Forall (calm H engine w) (pendings sk) ->
  exists out, co_resolve H engine sk w = (Some out, w) /\ pendings out = [].
Proof.
  induction sk as [v|ps IH|es IH|tr] using tree_ind'; intros Hall; simpl.
  - by exists (TLeaf v).
  - destruct (co_each_calm
                (fun (kx : string * tree) w0 =>
                   let '(x', w1) := co_resolve H engine (snd kx) w0 in
                   (option_map (pair (fst kx)) x', w1))
                (fun kx => pendings (snd kx)) (fun kx => pendings (snd kx))
                (calm H engine w) w ps) as (r & -> & Hr); [|done|].
    { eapply Forall_impl; [exact IH|]. intros [k x] Hx Hc. simpl in *.
      destruct (Hx Hc) as (y & -> & Hy). by exists (k, y). }
    by exists (TObj r).
  - destruct (co_each_calm (co_resolve H engine) pendings pendings
                (calm H engine w) w es) as (r & -> & Hr); [done|done|].
    by exists (TArr r).
  - simpl in Hall. apply Forall_cons in Hall as [Hc _].
    destruct (calm_generator _ _ _ _ Hc) as [s ->]. by exists (TLeaf s).
Qed.

(** X10: when, in the state the nodes are resolved in, no node of the
    value has both a numeric quantity and placeholders and no
    interpolation throws, [translate] returns with that state: nothing
    is written into the value it was given, and nothing is logged by the
    engine. *)
Theorem translate_writes_nothing H fuel e ld w v locale timezone sk keys :
  _walk fuel (w_heap w) v = Some (sk, keys) ->
  let engine := fst (request_engine w e locale timezone) in
  let w5 := snd (load (snd (request_engine w e locale timezone)) ld engine keys) in
  Forall (calm H engine w5) (pendings sk) ->
  w_heap w5 = w_heap w /\
  exists out ld',
    translate H fuel e ld w v locale timezone = Some (out, w5, ld') /\
    pendings out = [].
Proof.
  intros Hw. cbv zeta. rewrite translate_unfold, Hw.
  pose proof (request_engine_heap w e locale timezone) as Hh4.
  destruct (request_engine w e locale timezone) as [eng w4]. simpl in Hh4 |- *.
  pose proof (load_frame_inv w4 ld eng keys) as Hh5. cbv zeta in Hh5.
  destruct Hh5 as (Hh5 & _).
  destruct (load w4 ld eng keys) as [[tr ld1] w5]. simpl in Hh5 |- *.
  intros Hcalm. split; [by rewrite Hh5|].
  destruct (co_resolve_calm H eng w5 sk Hcalm) as (out & Hco & Hp).
  unfold yield_res. rewrite Hco.
  destruct sk as [x| | |]; eauto.
Qed.

Lemma translate_writes_nothing_witness :
  w_heap (snd (load (snd (request_engine (Ref.world nested_heap) Ref.engine "en" VNull))
                 Ref.loader
                 (fst (request_engine (Ref.world nested_heap) Ref.engine "en" VNull))
                 ["howdy"]))
  = nested_heap /\
  exists out ld',
    translate Ref.host 5 Ref.engine Ref.loader (Ref.world nested_heap) (VRef 0)
      "en" VNull
    = Some (out,
            snd (load (snd (request_engine (Ref.world nested_heap) Ref.engine "en" VNull))
                   Ref.loader
                   (fst (request_engine (Ref.world nested_heap) Ref.engine "en" VNull))
                   ["howdy"]),
            ld') /\
    pendings out = [].
Proof.
  apply (translate_writes_nothing Ref.host 5 Ref.engine Ref.loader
           (Ref.world nested_heap) (VRef 0) "en" VNull
           (TObj [("nested", TObj [("object", TPending (VRef 3))]);
                  ("n", TLeaf (VNum 1))])).
  - vm_compute. reflexivity.
  - constructor; [|constructor].
    exists [("key", VStr "howdy")], (VStr "Howdy"). split_and!.
    + reflexivity.
    + intros [[q Hq] _]. discriminate Hq.
    + vm_compute. reflexivity.
Defined.

(** ** The engine of a request *)

Lemma request_engine_spec w e locale timezone :
  let '(c, w4) := request_engine w e locale timezone in
  _config c = _config e /\
  _engine c = length (w_instances w) /\
  w_heap w4 = w_heap w /\
  w_catalog w4 = w_catalog w /\
  w_log w4 = w_log w /\
  w_configs w4 = <[_config e := request_config w e locale timezone]> (w_configs w) /\
  w_instances w4 = w_instances w ++ [request_language w e locale].
Proof.
  unfold request_engine, clone, init, set_timezone, set_locale, request_config,
    request_language, get_locale, config_of. simpl.
  split_and!; try reflexivity.
  - destruct (decide (_config e < length (w_configs w))) as [Hlt|Hge].
    + rewrite list_lookup_insert_eq by done. simpl.
      by rewrite list_insert_insert_eq.
    + by repeat (rewrite (list_insert_ge (w_configs w)) by lia).
  - rewrite list_insert_insert_eq.
    rewrite (list_lookup_insert_eq (w_instances w ++ _) (length (w_instances w)))
      by (rewrite length_app; simpl; lia).
    simpl.
    rewrite insert_app_r_alt by lia. rewrite Nat.sub_diag. simpl. do 2 f_equal.
    assert (get_prop
              (default []
                 (<[_config e := set_prop
                      (default [] (<[_config e := set_prop
                           (default [] (w_configs w !! _config e)) "locale"
                           (VStr locale)]> (w_configs w) !! _config e))
                      "timezone" timezone]>
                    (<[_config e := set_prop (default [] (w_configs w !! _config e))
                         "locale" (VStr locale)]> (w_configs w)) !! _config e)) "lng"
            = get_prop (default [] (w_configs w !! _config e)) "lng") as ->.
    { destruct (decide (_config e < length (w_configs w))) as [Hlt|Hge].
      - rewrite !list_lookup_insert_eq by (by rewrite ?length_insert).
        simpl. by rewrite !get_prop_set_ne by done.
      - by repeat (rewrite (list_insert_ge (w_configs w)) by lia). }
    destruct (get_prop (default [] (w_configs w !! _config e)) "lng"); try done.
    unfold truthy. by destruct (String.eqb locale "").
Qed.

Lemma same_engines_refl w : same_engines w w.
Proof. by unfold same_engines. Qed.

Lemma same_engines_trans w1 w2 w3 :
  same_engines w1 w2 -> same_engines w2 w3 -> same_engines w1 w3.
Proof. unfold same_engines. intros (-> & -> & ->) (-> & -> & ->). done. Qed.

Lemma translateGenerator_engines H self tr w :
  same_engines w (snd (translateGenerator H self tr w)).
Proof.
  unfold translateGenerator.
  destruct (destructure (w_heap w) tr) as [ps|]; [|apply same_engines_refl].
  destruct (bind_count w _ _) as [[phs w1]|] eqn:Hb; [|apply same_engines_refl].
  destruct (bind_count_catalog _ _ _ _ _ Hb) as (Hc & Hi & Hf & _).
  destruct (lookup_or_fallback H w1 self _ _ phs) as [s|msg]; simpl.
  - by unfold same_engines.
  - unfold same_engines, catch_error, alloc. by destruct tr.
Qed.

Lemma co_each_engines {A B} (f : A -> World -> option B * World) (l : list A) :
  Forall (fun x => forall w, same_engines w (snd (f x w))) l ->
  forall w, same_engines w (snd (co_each f l w)).
Proof.
  induction 1 as [|x l Hx _ IH]; intros w; simpl; [apply same_engines_refl|].
  pose proof (Hx w) as H1.
  destruct (f x w) as [x' w1]. simpl in H1.
  pose proof (IH w1) as H2.
  destruct (co_each f l w1) as [r' w2]. simpl in *.
  by eapply same_engines_trans.
Qed.

Lemma co_resolve_engines H engine sk :
  forall w, same_engines w (snd (co_resolve H engine sk w)).
Proof.
  induction sk as [v|ps IH|es IH|tr] using tree_ind'; intros w; simpl.
  - apply same_engines_refl.
  - pose proof (co_each_engines
                  (fun (kx : string * tree) w0 =>
                     let '(x', w1) := co_resolve H engine (snd kx) w0 in
                     (option_map (pair (fst kx)) x', w1)) ps) as He.
    destruct (co_each _ ps w) as [r w'] eqn:Hr.
    simpl. replace w' with (snd (co_each
                  (fun (kx : string * tree) w0 =>
                     let '(x', w1) := co_resolve H engine (snd kx) w0 in
                     (option_map (pair (fst kx)) x', w1)) ps w)) by (by rewrite Hr).
    apply He. eapply Forall_impl; [exact IH|]. intros [k x] Hx w0. simpl in *.
    specialize (Hx w0). by destruct (co_resolve H engine x w0).
  - pose proof (co_each_engines (co_resolve H engine) es IH w) as He.
    by destruct (co_each (co_resolve H engine) es w).
  - pose proof (translateGenerator_engines H engine tr w) as He.
    by destruct (translateGenerator H engine tr w) as [[v|] w'].
Qed.

Lemma yield_res_engines H engine res w :
  same_engines w (snd (yield_res H engine res w)).
Proof.
  unfold yield_res. pose proof (co_resolve_engines H engine res w) as He.
  destruct (co_resolve H engine res w) as [[t|] w'];
    destruct res; simpl in *; try done; apply same_engines_refl.
Qed.

(** What a call leaves in the state of the engines: one more i18next
    instance, for the request, and the locale and time zone of the
    request in the configuration of the shared engine. *)
Lemma translate_engine_state H fuel e ld w v locale timezone out w' ld' :
  translate H fuel e ld w v locale timezone = Some (out, w', ld') ->
  w_instances w' = w_instances w ++ [request_language w e locale] /\
  w_configs w' = <[_config e := request_config w e locale timezone]> (w_configs w).
Proof.
  rewrite translate_unfold.
  destruct (_walk fuel (w_heap w) v) as [[res keys]|]; [|done].
  pose proof (request_engine_spec w e locale timezone) as Hspec.
  destruct (request_engine w e locale timezone) as [engine w4].
  destruct Hspec as (_ & _ & _ & _ & _ & Hconf & Hinst).
  pose proof (load_frame_inv w4 ld engine keys) as Hload. cbv zeta in Hload.
  destruct Hload as (_ & Hc5 & Hi5 & _).
  destruct (load w4 ld engine keys) as [[tr ld1] w5]. simpl in Hc5, Hi5.
  pose proof (yield_res_engines H engine res w5) as (Hc6 & Hi6 & _).
  destruct (yield_res H engine res w5) as [out' w6]. simpl in Hc6, Hi6.
  intros [= <- <- <-]. split; congruence.
Qed.

(** X11: a call to [translate] never changes the locale of an engine
    that exists when it is made, the shared engine among them, whatever
    locale the request asks for. *)
Theorem translate_keeps_locales H fuel e ld w v locale timezone out w' ld' e' :
  translate H fuel e ld w v locale timezone = Some (out, w', ld') ->
  _engine e' < length (w_instances w) ->
  get_locale w' e' = get_locale w e'.
Proof.
  intros Ht Hlt. destruct (translate_engine_state _ _ _ _ _ _ _ _ _ _ _ Ht) as [Hi _].
  unfold get_locale. by rewrite Hi, lookup_app_l.
Qed.

Lemma translate_keeps_locales_witness :
  get_locale nested_after_fr Ref.engine = get_locale (Ref.world nested_heap) Ref.engine.
Proof.
  eapply (translate_keeps_locales Ref.host 5 Ref.engine Ref.loader
            (Ref.world nested_heap) (VRef 0) "fr" (VStr "Europe/Paris")
           _ nested_after_fr Ref.loader).
  - vm_compute. reflexivity.
  - simpl. lia.
Defined.

(** X12: the time zone and the locale of a request stay in the
    configuration object of the shared engine: after
    [translate(v, locale, timezone)] the shared engine reads [timezone]
    as its time zone, and its configuration has [locale] as [locale]. *)
Theorem translate_leaves_timezone H fuel e ld w v locale timezone out w' ld' :
  translate H fuel e ld w v locale timezone = Some (out, w', ld') ->
  _config e < length (w_configs w) ->
  get_timezone w' e = timezone /\
  get_prop (config_of w' e) "locale" = VStr locale.
Proof.
  intros Ht Hlt. destruct (translate_engine_state _ _ _ _ _ _ _ _ _ _ _ Ht) as [_ Hc].
  unfold get_timezone, config_of. rewrite Hc, list_lookup_insert_eq by done.
  simpl. unfold request_config. split.
  - apply get_prop_set_eq'.
  - rewrite get_prop_set_ne by done. apply get_prop_set_eq'.
Qed.

Lemma translate_leaves_timezone_witness :
  get_timezone
    (match translate Ref.host 5 Ref.engine Ref.loader (Ref.world nested_heap)
             (VRef 0) "fr" (VStr "Europe/Paris") with
     | Some (_, w', _) => w'
     | None => Ref.world nested_heap
     end) Ref.engine = VStr "Europe/Paris" /\
  get_prop
    (config_of
       (match translate Ref.host 5 Ref.engine Ref.loader (Ref.world nested_heap)
                (VRef 0) "fr" (VStr "Europe/Paris") with
        | Some (_, w', _) => w'
        | None => Ref.world nested_heap
        end) Ref.engine) "locale" = VStr "fr".
Proof.
  eapply (translate_leaves_timezone Ref.host 5 Ref.engine Ref.loader
            (Ref.world nested_heap) (VRef 0) "fr" (VStr "Europe/Paris")).
  - vm_compute. reflexivity.
  - simpl. lia.
Defined.

(** X13: unless the configuration of the shared engine has a [lng], the
    locales the loader fetches for a request are the locale asked for
    followed by the default one, or the default one alone when the
    request asks for it or for the empty string. *)
Theorem request_locales w e locale timezone :
  get_prop (config_of w e) "lng" = VUndef ->
  getLocales (snd (request_engine w e locale timezone))
    (fst (request_engine w e locale timezone))
  = if String.eqb locale "" || String.eqb locale DEFAULT_LOCALE
    then [DEFAULT_LOCALE] else [locale; DEFAULT_LOCALE].
Proof.
  intros Hlng. pose proof (request_engine_spec w e locale timezone) as Hspec.
  destruct (request_engine w e locale timezone) as [c w4].
  destruct Hspec as (_ & Hc & _ & _ & _ & _ & Hinst). simpl.
  unfold getLocales, get_locale. rewrite Hc, Hinst.
  rewrite lookup_app_r by done. rewrite Nat.sub_diag. simpl.
  unfold request_language. rewrite Hlng.
  destruct (String.eqb locale "") eqn:E; simpl; [done|].
  unfold getDefaultLocale, DEFAULT_LOCALE. by destruct (String.eqb locale "en").
Qed.

Lemma request_locales_witness :
  getLocales (snd (request_engine (Ref.world []) Ref.engine "fr-FR" VNull))
    (fst (request_engine (Ref.world []) Ref.engine "fr-FR" VNull))
  = ["fr-FR"; "en"].
Proof.
  apply (request_locales (Ref.world []) Ref.engine "fr-FR" VNull). reflexivity.
Defined.

(** X14: a [lng] in the configuration of the shared engine takes the
    place of the locale of every request: whatever locale [translate] is
    called with, the engine of the request translates in that language
    and the loader fetches that language and the default one. *)
Theorem configured_lng_overrides_request w e locale timezone lng :
  get_prop (config_of w e) "lng" = VStr lng ->
  get_locale (snd (request_engine w e locale timezone))
    (fst (request_engine w e locale timezone)) = VStr lng /\
  getLocales (snd (request_engine w e locale timezone))
    (fst (request_engine w e locale timezone))
  = if String.eqb lng DEFAULT_LOCALE then [DEFAULT_LOCALE] else [lng; DEFAULT_LOCALE].
Proof.
  intros Hlng. pose proof (request_engine_spec w e locale timezone) as Hspec.
  destruct (request_engine w e locale timezone) as [c w4].
  destruct Hspec as (_ & Hc & _ & _ & _ & _ & Hinst). simpl.
  assert (get_locale w4 c = VStr lng) as Hloc.
  { unfold get_locale. rewrite Hc, Hinst.
    rewrite lookup_app_r by done. rewrite Nat.sub_diag. simpl.
    unfold request_language. by rewrite Hlng. }
  split; [done|]. unfold getLocales. rewrite Hloc.
  unfold getDefaultLocale, DEFAULT_LOCALE. by destruct (String.eqb lng "en").
Qed.

Lemma configured_lng_overrides_request_witness :
  get_locale
    (snd (request_engine (with_configs (Ref.world []) [[("lng", VStr "de")]])
            Ref.engine "fr" VNull))
    (fst (request_engine (with_configs (Ref.world []) [[("lng", VStr "de")]])
            Ref.engine "fr" VNull)) = VStr "de".
Proof.
  refine (proj1 (configured_lng_overrides_request
                   (with_configs (Ref.world []) [[("lng", VStr "de")]])
                   Ref.engine "fr" VNull "de" _)).
  reflexivity.
Defined.

(** ** The formatters *)

Lemma language_of_region lang region :
  language_of (lang +:+ "-" +:+ region) = language_of lang.
Proof.
  induction lang as [|c r IH]; simpl; [done|].
  destruct (Ascii.eqb c "-"); [done|by rewrite IH].
Qed.

(** X15: a duration is formatted in the language of the locale, whatever
    its region: [formatter(d, 'duration', lang + '-' + region)] is
    [formatter(d, 'duration', lang)], the failures included. *)
Theorem duration_ignores_region H h tz duration lang region :
  formatter H h tz duration "duration" (lang +:+ "-" +:+ region)
  = formatter H h tz duration "duration" lang.
Proof.
  unfold formatter. simpl. unfold formatDuration.
  by rewrite language_of_region.
Qed.

(** X16: a placeholder that carries a time zone of its own is formatted
    the same whatever the time zone of the engine, in every format. *)
Theorem placeholder_timezone_wins H h tz tz' value format locale ps :
  own_props h value = Some ps ->
  truthy (get_prop ps "timezone") = true ->
  formatter H h tz value format locale = formatter H h tz' value format locale.
Proof.
  intros Hps Htz.
  assert (destructure h value = Ok ps) as Hd.
  { unfold destructure. rewrite Hps. by destruct value. }
  unfold formatter, formatDate, formatTime, formatDateAndTime, localeDate.
  rewrite Hd. unfold getValidTimezone. rewrite Htz.
  by repeat case_match.
Qed.

Lemma placeholder_timezone_wins_witness :
  formatter Ref.host
    [OPlain [("value", VStr "2016-01-01T00:00:00Z"); ("timezone", VStr "Asia/Tokyo")]]
    (VStr "Europe/Paris") (VRef 0) "datetime" "en"
  = formatter Ref.host
      [OPlain [("value", VStr "2016-01-01T00:00:00Z"); ("timezone", VStr "Asia/Tokyo")]]
      VUndef (VRef 0) "datetime" "en".
Proof.
  eapply (placeholder_timezone_wins Ref.host _ (VStr "Europe/Paris") VUndef (VRef 0)).
  - reflexivity.
  - reflexivity.
Defined.

(** ** The engine *)

(** X17: after [c = e.clone()] and [c.locale = l], the clone reads [l]
    and the original reads the locale it had, but the [locale] of the
    configuration of the original is [l]: the two engines have one
    configuration object. *)
Theorem clone_locale_split w e l :
  _engine e < length (w_instances w) ->
  _config e < length (w_configs w) ->
  let w2 := set_locale (snd (clone w e)) (fst (clone w e)) l in
  get_locale w2 (fst (clone w e)) = l /\
  get_locale w2 e = get_locale w e /\
  get_prop (config_of w2 e) "locale" = l.
Proof.
  intros He Hc. unfold clone, set_locale, get_locale, config_of. simpl.
  split_and!.
  - rewrite insert_app_r_alt by lia. rewrite Nat.sub_diag. simpl.
    rewrite lookup_app_r by lia. by rewrite Nat.sub_diag.
  - rewrite list_lookup_insert_ne by lia. by rewrite lookup_app_l.
  - rewrite list_lookup_insert_eq by done. simpl. apply get_prop_set_eq'.
Qed.

Lemma clone_locale_split_witness :
  get_locale (set_locale (snd (clone (Ref.world []) Ref.engine))
                (fst (clone (Ref.world []) Ref.engine)) (VStr "fr"))
    Ref.engine = get_locale (Ref.world []) Ref.engine /\
  get_prop (config_of (set_locale (snd (clone (Ref.world []) Ref.engine))
                         (fst (clone (Ref.world []) Ref.engine)) (VStr "fr"))
              Ref.engine) "locale" = VStr "fr".
Proof.
  refine (proj2 (clone_locale_split (Ref.world []) Ref.engine (VStr "fr") _ _));
    simpl; lia.
Defined.

(** X18: the locales of an engine, which the loader asks the store for
    in this order, end with the default locale and hold no locale
    twice; they are one or two. *)
Theorem getLocales_shape w e :
  last (getLocales w e) = Some getDefaultLocale /\
  NoDup (getLocales w e) /\
  1 <= length (getLocales w e) <= 2.
Proof.
  unfold getLocales.
  assert (forall l, l <> getDefaultLocale -> NoDup [l; getDefaultLocale]) as Hnd.
  { intros l Hl. apply NoDup_cons. split.
    - intros Hin. apply list_elem_of_singleton in Hin. done.
    - apply NoDup_singleton. }
  destruct (get_locale w e) as [| |b|n|s|r]; simpl;
    try (split_and!; [done|by apply Hnd|lia|lia]).
  destruct (String.eqb s getDefaultLocale) eqn:E; simpl.
  - split_and!; [done|apply NoDup_singleton|lia|lia].
  - split_and!; [done| |lia|lia]. apply Hnd. intros ->.
    by rewrite String.eqb_refl in E.
Qed.

(** ** [translate] and the resources *)

Lemma template_at_union_l (cat : gmap string (gmap string string)) l m k t :
  template_at cat l k = Some t ->
  (default ∅ (cat !! l) ∪ m) !! k = Some t.
Proof.
  unfold template_at. destruct (cat !! l) as [M|]; simpl; [|done].
  intros HM. by apply lookup_union_Some_l.
Qed.

Lemma load_keeps_resources w ld engine keys l k t :
  template_at (w_catalog w) l k = Some t ->
  template_at (w_catalog (snd (load w ld engine keys))) l k = Some t.
Proof.
  intros Ht.
  destruct (load_world w ld engine keys) as [Hw|(error & _ & Hw)]; rewrite Hw; [|done].
  unfold template_at at 1. rewrite add_all_catalog.
  destruct (fst (fst (load w ld engine keys)) !! l) as [m|]; simpl; [|exact Ht].
  by apply template_at_union_l.
Qed.

(** X19: a call to [translate] only adds to the resources of i18next:
    a template the engine has for a locale and a key before the call is
    the template it has after it, whatever the store holds for them. *)
Theorem translate_keeps_resources H fuel e ld w v locale timezone out w' ld' l k t :
  translate H fuel e ld w v locale timezone = Some (out, w', ld') ->
  template_at (w_catalog w) l k = Some t ->
  template_at (w_catalog w') l k = Some t.
Proof.
  rewrite translate_unfold.
  destruct (_walk fuel (w_heap w) v) as [[res keys]|]; [|done].
  pose proof (request_engine_spec w e locale timezone) as Hspec.
  destruct (request_engine w e locale timezone) as [engine w4].
  destruct Hspec as (_ & _ & _ & Hcat & _).
  pose proof (load_keeps_resources w4 ld engine keys l k t) as Hload.
  destruct (load w4 ld engine keys) as [[tr ld1] w5]. simpl in Hload.
  pose proof (yield_res_engines H engine res w5) as (_ & _ & Hc6).
  destruct (yield_res H engine res w5) as [out' w6]. simpl in Hc6.
  intros [= <- <- <-] Ht. rewrite Hc6. apply Hload. by rewrite Hcat.
Qed.

Lemma translate_keeps_resources_witness :
  template_at (w_catalog nested_after_renamed) "en" "howdy" = Some "Howdy".
Proof.
  eapply (translate_keeps_resources Ref.host 5 Ref.engine renamed_loader
            (Ref.world nested_heap) (VRef 0) "en" VNull nested_out
            nested_after_renamed).
  - vm_compute. reflexivity.
  - vm_compute. reflexivity.
Defined.

(** ** The cache, key after key *)

Lemma loadFromCache_loop_app locales ks ks' translations unknown ld :
  loadFromCache_loop locales (ks ++ ks') translations unknown ld
  = let '(tr1, un1, ld1) := loadFromCache_loop locales ks translations unknown ld in
    loadFromCache_loop locales ks' tr1 un1 ld1.
Proof.
  revert translations unknown ld.
  induction ks as [|key r IH]; intros translations unknown ld; simpl.
  - done.
  - destruct (getItemFromCache ld key locales) as [hit ld1].
    destruct (bool_decide (hit = ∅)); apply IH.
Qed.

(** X20: [loadFromCache] assigns, for each key the cache knows, a new
    object to every locale of the hit, so that a locale keeps the
    template of one key only: when the last requested key is cached
    under a locale of the engine, the translations returned have under
    that locale this key and no other, however many of the keys before
    it are cached under the same locale. *)
Theorem loadFromCache_last_hit_wins w ld engine keys key l t :
  l ∈ getLocales w engine ->
  cached ld key !! l = Some t ->
  forall k,
    template_at (fst (fst (loadFromCache w ld engine (keys ++ [key])))) l k
    = if decide (k = key) then Some t else None.
Proof.
  intros Hl Hc k. unfold loadFromCache. rewrite loadFromCache_loop_app.
  destruct (loadFromCache_loop (getLocales w engine) keys ∅ [] ld)
    as [[tr1 un1] ld1] eqn:Hloop.
  destruct (loadFromCache_loop_reads _ _ _ _ _ _ _ _ (getLocales_not_empty w engine) Hloop)
    as (Hsame & _ & _).
  simpl.
  destruct (getItemFromCache_reads ld1 key (getLocales w engine)) as [Hfst _].
  destruct (getItemFromCache ld1 key (getLocales w engine)) as [hit ld2].
  simpl in Hfst.
  assert (hit = pick (cached ld key) (getLocales w engine)) as ->.
  { rewrite Hfst, Hsame. pose proof (getLocales_not_empty w engine).
    by destruct (getLocales w engine). }
  assert (pick (cached ld key) (getLocales w engine) !! l = Some t) as Hhit.
  { rewrite pick_lookup. by rewrite decide_True. }
  rewrite bool_decide_eq_false_2.
  2:{ intros He. by rewrite He, lookup_empty in Hhit. }
  simpl. by rewrite template_at_hit, Hhit.
Qed.

Lemma loadFromCache_last_hit_wins_witness :
  template_at
    (fst (fst (loadFromCache (Ref.world []) warm_loader Ref.engine
                 (["howdy"] ++ ["hello-john"])))) "en" "howdy"
  = if decide ("howdy" = "hello-john") then Some "Hello {{john}}" else None.
Proof.
  apply (loadFromCache_last_hit_wins (Ref.world []) warm_loader Ref.engine
           ["howdy"] "hello-john" "en" "Hello {{john}}").
  - vm_compute. apply list_elem_of_here.
  - vm_compute. reflexivity.
Defined.

(** ** What [load] leaves in the cache *)

Lemma lru_remove_cons_eq key v items :
  lru_remove key ((key, v) :: items) = lru_remove key items.
Proof.
  unfold lru_remove. rewrite filter_cons. cbn [fst].
  destruct (decide (negb (String.eqb key key) = true)) as [Hd|Hd]; [|done].
  by rewrite String.eqb_refl in Hd.
Qed.

Lemma lru_remove_idem key items :
  lru_remove key (lru_remove key items) = lru_remove key items.
Proof.
  unfold lru_remove. induction items as [|[k0 v0] r IH]; [done|].
  rewrite filter_cons. cbn [fst].
  destruct (decide (negb (String.eqb k0 key) = true)) as [Hd|Hd]; [|exact IH].
  rewrite filter_cons. cbn [fst]. rewrite decide_True by done. by rewrite IH.
Qed.

Lemma lru_remove_length key items :
  length (lru_remove key items) <= length items.
Proof. apply length_filter. Qed.

Lemma lru_remove_length_hit key items v :
  assoc_str items key = Some v ->
  S (length (lru_remove key items)) <= length items.
Proof.
  unfold lru_remove. induction items as [|[k0 v0] r IH]; [done|].
  simpl assoc_str. rewrite filter_cons. cbn [fst].
  destruct (String.eqb k0 key) eqn:E; simpl.
  - intros _. pose proof (length_filter (fun kv : string * gmap string string =>
                                           negb (String.eqb (fst kv) key) = true) r).
    destruct (decide (false = true)); [done|]. simpl. lia.
  - intros Ha. specialize (IH Ha).
    destruct (decide (true = true)); [|done]. simpl. lia.
Qed.

Lemma lru_get_items c key :
  lru_max (snd (lru_get c key)) = lru_max c /\
  lru_remove key (lru_items (snd (lru_get c key))) = lru_remove key (lru_items c) /\
  length (lru_items (snd (lru_get c key))) <= length (lru_items c).
Proof.
  unfold lru_get. destruct (assoc_str (lru_items c) key) as [v|] eqn:Ha; simpl.
  - split_and!; [done| |].
    + by rewrite lru_remove_cons_eq, lru_remove_idem.
    + by eapply lru_remove_length_hit.
  - done.
Qed.

Lemma setItemToCache_items ld key tr :
  lru_max (ld_cache ld) = 0 \/
    S (length (lru_remove key (lru_items (ld_cache ld)))) <= lru_max (ld_cache ld) ->
  lru_items (ld_cache (setItemToCache ld key tr))
  = (key, tr ∪ cached ld key) :: lru_remove key (lru_items (ld_cache ld)) /\
  lru_max (ld_cache (setItemToCache ld key tr)) = lru_max (ld_cache ld).
Proof.
  intros Hroom. unfold setItemToCache, getItemFromCache, cached.
  pose proof (lru_get_items (ld_cache ld) key) as (Hmax & Hrem & _).
  assert (fst (lru_get (ld_cache ld) key) = assoc_str (lru_items (ld_cache ld)) key) as Hf.
  { unfold lru_get. by destruct (assoc_str (lru_items (ld_cache ld)) key). }
  destruct (lru_get (ld_cache ld) key) as [found c1]. simpl in *. subst found.
  unfold lru_set. simpl. rewrite Hmax, Hrem. split; [|done].
  unfold lru_trim. destruct (lru_max (ld_cache ld)) as [|m] eqn:Em; [done|].
  apply take_ge. simpl. lia.
Qed.

Lemma setItemToCache_cached ld key tr k :
  lru_max (ld_cache ld) = 0 \/
    S (length (lru_remove key (lru_items (ld_cache ld)))) <= lru_max (ld_cache ld) ->
  cached (setItemToCache ld key tr) k
  = if decide (k = key) then tr ∪ cached ld key else cached ld k.
Proof.
  intros Hroom. destruct (setItemToCache_items ld key tr Hroom) as [Hitems _].
  unfold cached at 1. rewrite Hitems. simpl.
  destruct (decide (k = key)) as [->|Hne].
  - by rewrite String.eqb_refl.
  - destruct (String.eqb key k) eqn:E.
    + apply String.eqb_eq in E. congruence.
    + unfold cached. by rewrite assoc_lru_remove_ne.
Qed.

Lemma reformat_row_cache (g : string -> option string) row key ls :
  forall j acc,
    (forall i l, ls !! i = Some l -> row !! (j + i) = Some (g l)) ->
    lru_max (ld_cache (snd acc)) = 0 \/
      S (length (lru_remove key (lru_items (ld_cache (snd acc)))))
      <= lru_max (ld_cache (snd acc)) ->
    lru_max (ld_cache (snd (reformat_row row key j ls acc)))
    = lru_max (ld_cache (snd acc)) /\
    length (lru_items (ld_cache (snd (reformat_row row key j ls acc))))
    <= Nat.max (length (lru_items (ld_cache (snd acc))))
               (S (length (lru_remove key (lru_items (ld_cache (snd acc)))))) /\
    forall k l,
      cached (snd (reformat_row row key j ls acc)) k !! l
      = from_option Some (cached (snd acc) k !! l)
          (if decide (k = key /\ l ∈ ls) then taken (g l) else None).
Proof.
  induction ls as [|locale r IH]; intros j acc Hrow Hroom.
  - simpl. split_and!; [done|lia|]. intros k l.
    rewrite decide_False; [done|]. intros [_ Hin]. by apply not_elem_of_nil in Hin.
  - cbn [reformat_row].
    assert (row !! j = Some (g locale)) as Hj.
    { replace j with (j + 0) by lia. by apply Hrow. }
    rewrite Hj.
    set (acc' := match g locale with
                 | Some template =>
                     if String.eqb template "" then acc
                     else (set_path (fst acc) locale key template,
                           setItemToCache (snd acc) key {[ locale := template ]})
                 | None => acc
                 end).
    assert (lru_max (ld_cache (snd acc')) = lru_max (ld_cache (snd acc)) /\
            lru_remove key (lru_items (ld_cache (snd acc')))
            = lru_remove key (lru_items (ld_cache (snd acc))) /\
            length (lru_items (ld_cache (snd acc')))
            <= Nat.max (length (lru_items (ld_cache (snd acc))))
                       (S (length (lru_remove key (lru_items (ld_cache (snd acc)))))) /\
            forall k l, cached (snd acc') k !! l
                        = if decide (l = locale /\ k = key)
                          then from_option Some (cached (snd acc) k !! l) (taken (g locale))
                          else cached (snd acc) k !! l) as (Hmax & Hrem & Hlen & Hacc).
    { unfold acc', taken. destruct (g locale) as [t|]; simpl.
      2:{ split_and!; [done|done|lia|]. intros k l. by destruct (decide _). }
      destruct (String.eqb t ""); simpl.
      { split_and!; [done|done|lia|]. intros k l. by destruct (decide _). }
      destruct (setItemToCache_items (snd acc) key {[ locale := t ]} Hroom)
        as [Hitems Hm].
      split_and!; [done| | |].
      - by rewrite Hitems, lru_remove_cons_eq, lru_remove_idem.
      - rewrite Hitems. simpl. lia.
      - intros k l. rewrite setItemToCache_cached by done.
        destruct (decide (k = key)) as [->|Hk].
        + rewrite lookup_union.
          destruct (decide (l = locale)) as [->|Hl].
          * rewrite lookup_singleton_eq, decide_True by done.
            by destruct (cached (snd acc) key !! locale).
          * rewrite lookup_singleton_ne by done.
            rewrite decide_False by tauto.
            by destruct (cached (snd acc) key !! l).
        + by rewrite decide_False by tauto. }
    clearbody acc'.
    destruct (IH (S j) acc') as (Hmax' & Hlen' & Hc').
    { intros i l' Hi. replace (S j + i) with (j + S i) by lia. by apply Hrow. }
    { by rewrite Hmax, Hrem. }
    split_and!.
    + by rewrite Hmax'.
    + rewrite Hrem in Hlen'. lia.
    + intros k l. rewrite Hc', Hacc.
      destruct (decide (k = key /\ l ∈ r)) as [[Hk Hin]|Hnr];
        destruct (decide (l = locale /\ k = key)) as [[Hl Hk']|Hne];
        destruct (decide (k = key /\ l ∈ locale :: r)) as [[Hk'' Hin']|Hn];
        subst; simpl; try done;
        try (by destruct (taken (g locale)));
        try (exfalso; apply Hn; split; [done|apply elem_of_cons; tauto]).
      exfalso. apply elem_of_cons in Hin' as [->|Hin']; tauto.
Qed.

Lemma reformat_cache db locales keys :
  forall pre acc,
    lru_max (ld_cache (snd acc)) = 0 \/
      length (lru_items (ld_cache (snd acc))) + length keys
      <= lru_max (ld_cache (snd acc)) ->
    forall k l,
      cached (snd (reformat (map (hmget_row db locales) (pre ++ keys)) (length pre)
                     keys locales acc)) k !! l
      = from_option Some (cached (snd acc) k !! l)
          (if decide (k ∈ keys /\ l ∈ locales)
           then taken (db !! k ≫= fun m => m !! l) else None).
Proof.
  induction keys as [|key r IH]; intros pre acc Hfits k l.
  - cbn [reformat].
    destruct (decide (k ∈ [] /\ l ∈ locales)) as [[Hin _]|]; [|done].
    by apply not_elem_of_nil in Hin.
  - cbn [reformat].
    replace (pre ++ key :: r) with ((pre ++ [key]) ++ r) by (by rewrite <- app_assoc).
    replace (S (length pre)) with (length (pre ++ [key]))
      by (rewrite length_app; simpl; lia).
    assert (map (hmget_row db locales) ((pre ++ [key]) ++ r) !! length pre
            = Some (hmget_row db locales key)) as Hrow.
    { rewrite list_lookup_fmap, <- app_assoc. simpl.
      rewrite lookup_app_r by done. by rewrite Nat.sub_diag. }
    rewrite Hrow. simpl default.
    pose proof (lru_remove_length key (lru_items (ld_cache (snd acc)))) as Hrl.
    destruct (reformat_row_cache (fun f => db !! key ≫= fun m => m !! f)
                (hmget_row db locales key) key locales 0 acc)
      as (Hmax & Hlen & Hc).
    { intros i f Hi. simpl. unfold hmget_row. by rewrite list_lookup_fmap, Hi. }
    { simpl in Hfits. lia. }
    rewrite IH.
    2:{ rewrite Hmax. simpl in Hfits. lia. }
    rewrite Hc.
    destruct (decide (k ∈ r /\ l ∈ locales)) as [[Hin Hl]|Hnr];
      destruct (decide (k = key /\ l ∈ locales)) as [[Hk Hl']|Hne];
      destruct (decide (k ∈ key :: r /\ l ∈ locales)) as [[Hin' Hl'']|Hn];
      subst; simpl; try done;
      try (by destruct (taken _));
      try (exfalso; apply Hn; split; [apply elem_of_cons; tauto|done]).
    exfalso. apply elem_of_cons in Hin' as [->|Hin']; tauto.
Qed.

Lemma loadFromCache_loop_size locales keys translations unknown ld :
  lru_max (ld_cache (snd (loadFromCache_loop locales keys translations unknown ld)))
  = lru_max (ld_cache ld) /\
  length (lru_items (ld_cache (snd (loadFromCache_loop locales keys translations
                                      unknown ld))))
  <= length (lru_items (ld_cache ld)).
Proof.
  revert translations unknown ld.
  induction keys as [|key r IH]; intros translations unknown ld; [done|].
  simpl.
  pose proof (lru_get_items (ld_cache ld) key) as (Hmax & _ & Hlen).
  unfold getItemFromCache.
  destruct (lru_get (ld_cache ld) key) as [found c1]. simpl in Hmax, Hlen.
  match goal with
  | |- context [bool_decide ?P] => destruct (bool_decide P)
  end.
  - destruct (IH translations (unknown ++ [key]) (with_cache ld c1)) as [IH1 IH2].
    simpl in IH1, IH2. split; [congruence|lia].
  - match goal with
    | |- context [loadFromCache_loop locales r ?t unknown (with_cache ld c1)] =>
        destruct (IH t unknown (with_cache ld c1)) as [IH1 IH2]
    end.
    simpl in IH1, IH2. split; [congruence|lia].
Qed.

Lemma load_cache_inv w ld engine keys db :
  ld_redis ld = Some (Connected db) ->
  (forall key, key ∈ keys -> pick (cached ld key) (getLocales w engine) = ∅) ->
  lru_max (ld_cache ld) = 0 \/
    length (lru_items (ld_cache ld)) + length keys <= lru_max (ld_cache ld) ->
  forall k l,
    cached (snd (fst (load w ld engine keys))) k !! l
    = from_option Some (cached ld k !! l)
        (if decide (k ∈ keys /\ l ∈ getLocales w engine)
         then taken (db !! k ≫= fun m => m !! l) else None).
Proof.
  intros Hr Hcold Hfits k l. unfold load. rewrite Hr.
  pose proof (loadFromCache_loop_size (getLocales w engine) keys ∅ [] ld) as Hsize.
  destruct (loadFromCache w ld engine keys) as [[tr unknown] ld1] eqn:Hc.
  unfold loadFromCache in Hc. rewrite Hc in Hsize. simpl in Hsize.
  destruct Hsize as [Hmax Hlen].
  destruct (loadFromCache_inv _ _ _ _ _ _ _ Hc) as (Hsame & Hu & _).
  rewrite (filter_all _ _ Hcold) in Hu. subst unknown.
  destruct keys as [|key r].
  - cbn [fst snd]. rewrite Hsame.
    destruct (decide (k ∈ [] /\ l ∈ getLocales w engine)) as [[Hin _]|]; [|done].
    by apply not_elem_of_nil in Hin.
  - simpl multi_exec. cbv iota beta.
    destruct (reformat _ 0 (key :: r) (getLocales w engine) (tr, ld1))
      as [tr' ld2] eqn:Hre. simpl.
    pose proof (reformat_cache db (getLocales w engine) (key :: r) [] (tr, ld1)) as Hal.
    simpl in Hal. unfold hmget_row in Hal. simpl in Hre. rewrite Hre in Hal.
    cbn [snd] in Hal. rewrite Hal, Hsame; [done|].
    rewrite Hmax. simpl in Hfits. lia.
Qed.

(** X21: when the cache has nothing for the requested keys, has room for
    them, and the remote store answers, [load] leaves in the cache, for
    each requested key and each locale of the engine, the template the
    store holds when it is not empty; every other template of the cache
    is the one it held. *)
Theorem load_fills_cache w ld engine keys db :
  ld_redis ld = Some (Connected db) ->
  (forall key, key ∈ keys -> pick (cached ld key) (getLocales w engine) = ∅) ->
  lru_max (ld_cache ld) = 0 \/
    length (lru_items (ld_cache ld)) + length keys <= lru_max (ld_cache ld) ->
  forall k l,
    cached (snd (fst (load w ld engine keys))) k !! l
    = from_option Some (cached ld k !! l)
        (if decide (k ∈ keys /\ l ∈ getLocales w engine)
         then taken (db !! k ≫= fun m => m !! l) else None).
Proof. exact (load_cache_inv w ld engine keys db). Qed.

Lemma load_fills_cache_witness :
  cached (snd (fst (load (set_locale (Ref.world []) Ref.engine (VStr "fr")) cold_loader
                      Ref.engine ["howdy"; "hello-john"]))) "howdy" !! "fr"
  = from_option Some (cached cold_loader "howdy" !! "fr")
      (if decide ("howdy" ∈ ["howdy"; "hello-john"] /\
                  "fr" ∈ getLocales (set_locale (Ref.world []) Ref.engine (VStr "fr"))
                           Ref.engine)
       then taken (({[ "howdy" := {[ "en" := "Howdy"; "fr" := "Hey" ]};
                       "hello-john" := {[ "en" := "Hello {{john}}" ]} ]}
                     : gmap string (gmap string string)) !! "howdy"
                   ≫= fun m => m !! "fr")
       else None).
Proof.
  apply (load_fills_cache
           (set_locale (Ref.world []) Ref.engine (VStr "fr")) cold_loader Ref.engine
           ["howdy"; "hello-john"]).
  - reflexivity.
  - intros key _. vm_compute. reflexivity.
  - right. simpl. lia.
Defined.

Lemma filter_none {A} (P : A -> Prop) `{!forall x, Decision (P x)} (l : list A) :
  (forall x, x ∈ l -> ~ P x) -> filter P l = [].
Proof.
  induction l as [|x r IH]; intros Hall; [done|].
  rewrite filter_cons, decide_False by (apply Hall; by left).
  apply IH. intros y Hy. apply Hall. by right.
Qed.

Lemma load_getLocales w ld engine keys :
  getLocales (snd (load w ld engine keys)) engine = getLocales w engine.
Proof.
  pose proof (load_frame_inv w ld engine keys) as Hf. cbv zeta in Hf.
  destruct Hf as (_ & _ & Hi & _).
  unfold getLocales, get_locale. by rewrite Hi.
Qed.

(** X22: once [load] has fetched the requested keys from the store, and
    the store had for each of them a template under a locale of the
    engine, loading the same keys again does not ask the store: whatever
    state the store is in by then, unreachable included, the second
    [load] returns what [loadFromCache] finds and logs nothing. *)
Theorem load_again_without_store w ld engine keys db r :
  ld_redis ld = Some (Connected db) ->
  (forall key, key ∈ keys -> pick (cached ld key) (getLocales w engine) = ∅) ->
  lru_max (ld_cache ld) = 0 \/
    length (lru_items (ld_cache ld)) + length keys <= lru_max (ld_cache ld) ->
  (forall key, key ∈ keys ->
     exists l, l ∈ getLocales w engine /\
               is_Some (taken (db !! key ≫= fun m => m !! l))) ->
  let w' := snd (load w ld engine keys) in
  let ld' := snd (fst (load w ld engine keys)) in
  fst (fst (load w' (with_redis ld' (Some r)) engine keys))
  = fst (fst (loadFromCache w' ld' engine keys)) /\
  w_log (snd (load w' (with_redis ld' (Some r)) engine keys)) = w_log w'.
Proof.
  intros Hr Hcold Hfits Hheld w' ld'.
  pose proof (load_cache_inv w ld engine keys db Hr Hcold Hfits) as Hfill.
  fold ld' in Hfill.
  pose proof (load_getLocales w ld engine keys) as Hloc. fold w' in Hloc.
  destruct (loadFromCache w' ld' engine keys) as [[tr2 un2] ld2] eqn:Hc.
  destruct (loadFromCache_inv _ _ _ _ _ _ _ Hc) as (_ & Hu & _).
  rewrite filter_none in Hu.
  2:{ intros key Hin Hempty. destruct (Hheld key Hin) as (l & Hl & [t Ht]).
      pose proof (pick_lookup (cached ld' key) (getLocales w' engine) l) as Hp.
      rewrite Hempty, lookup_empty, Hloc, decide_True in Hp by done.
      rewrite Hfill, decide_True, Ht in Hp by done. done. }
  subst un2.
  destruct (load_cached_inv w' ld' engine keys tr2 ld2 r Hc) as [Hload Hlog].
  rewrite Hload. simpl. done.
Qed.

Lemma load_again_without_store_witness :
  w_log (snd (load (snd (load (Ref.world []) cold_loader Ref.engine
                           ["howdy"; "hello-john"]))
                (with_redis (snd (fst (load (Ref.world []) cold_loader Ref.engine
                                         ["howdy"; "hello-john"])))
                   (Some (Failing "ECONNREFUSED")))
                Ref.engine ["howdy"; "hello-john"]))
  = w_log (snd (load (Ref.world []) cold_loader Ref.engine ["howdy"; "hello-john"])).
Proof.
  refine (proj2 (load_again_without_store (Ref.world []) cold_loader Ref.engine
                   ["howdy"; "hello-john"] _ (Failing "ECONNREFUSED") _ _ _ _)).
  - reflexivity.
  - intros key _. vm_compute. reflexivity.
  - right. simpl. lia.
  - intros key Hin. exists "en". split; [vm_compute; apply list_elem_of_here|].
    apply list_elem_of_In in Hin. simpl in Hin.
    destruct Hin as [<-|[<-|[]]]; vm_compute; eauto.
Defined.

(** ** Values that contain themselves *)

Lemma walk_each_none walk vs v :
  v ∈ vs -> walk v = None -> walk_each walk vs = None.
Proof.
  intros Hin Hv. induction vs as [|x r IH]; [by apply not_elem_of_nil in Hin|].
  simpl. apply elem_of_cons in Hin as [<-|Hin].
  - by rewrite Hv.
  - destruct (walk x) as [[t ks]|]; [|done]. by rewrite IH.
Qed.

Lemma walk_cycle h (cycle : list val) :
  (forall v, v ∈ cycle ->
     _validateNode h v = false /\ exists v', v' ∈ cycle /\ child h v v') ->
  forall fuel v, v ∈ cycle -> _walk fuel h v = None.
Proof.
  intros Hcycle. induction fuel as [|fuel IH]; intros v Hin; [done|].
  destruct (Hcycle v Hin) as (Hval & v' & Hin' & Hchild).
  simpl. rewrite Hval. unfold child in Hchild.
  destruct v as [| | | | |l]; try done.
  destruct (h !! l) as [[ps|es|ps [json|]|m ps]|]; try done.
  - by rewrite (walk_each_none _ _ v' Hchild (IH v' Hin')).
  - by rewrite (walk_each_none _ _ v' Hchild (IH v' Hin')).
  - subst json. by apply IH.
Qed.

(** X23: [translate] returns nothing for a value that contains itself
    outside of any node: when the value belongs to a set of values none
    of which is a translation node and each of which has, among the
    values of its properties, its elements or what its [toJSON] returns,
    a member of the set, the walk does not come to an end, however deep
    it is allowed to go. *)
Theorem translate_cycle H e ld w v locale timezone (cycle : list val) :
  (forall x, x ∈ cycle ->
     _validateNode (w_heap w) x = false /\
     exists x', x' ∈ cycle /\ child (w_heap w) x x') ->
  v ∈ cycle ->
  forall fuel, translate H fuel e ld w v locale timezone = None.
Proof.
  intros Hcycle Hin fuel. rewrite translate_unfold.
  by rewrite (walk_cycle (w_heap w) cycle Hcycle fuel v Hin).
Qed.

Lemma translate_cycle_witness :
  translate Ref.host 1000 Ref.engine Ref.loader (Ref.world self_heap) (VRef 0) "en" VNull
  = None.
Proof.
  apply (translate_cycle Ref.host Ref.engine Ref.loader (Ref.world self_heap) (VRef 0)
           "en" VNull [VRef 0]).
  - intros x Hx. apply list_elem_of_singleton in Hx as ->.
    split; [vm_compute; reflexivity|].
    exists (VRef 0). split; [apply list_elem_of_here|].
    simpl. apply list_elem_of_here.
  - apply list_elem_of_here.
Defined.
